(** * sql-lineage-tracker: the lineage graph, the extractor, the resolver and
    the execution-order engine, embedded from [sqllineage/core].

    Python values are modelled as follows.
    - [str] is [string]; [str.lower] and [str.upper] act on the ASCII letters
      (the strings of this development are byte strings).
    - [Optional[str]] is [option string]; Python truthiness ([if self.database:])
      is [truthy], so [Some ""] counts as absent exactly where the code tests
      truthiness.
    - [dict] is an insertion-ordered association list ([Dict.t]): iteration
      order of [graph.tables] decides the execution order, so order is kept.
    - [set] is a duplicate-free list in insertion order; the order in which
      Python iterates a set is left open (see [Section ExecutionOrder]).
    - exceptions are an explicit [outcome]. *)

From Stdlib Require Import List String Ascii Bool Arith ZArith Lia.
From Stdlib Require Import Permutation Relations.
Import ListNotations.
Open Scope string_scope.

Set Implicit Arguments.

(** ** Strings *)

Module Str.

Definition is_upper (c : ascii) : bool :=
  let n := nat_of_ascii c in ((65 <=? n)%nat && (n <=? 90)%nat)%bool.

Definition is_lower (c : ascii) : bool :=
  let n := nat_of_ascii c in ((97 <=? n)%nat && (n <=? 122)%nat)%bool.

Definition lower_ascii (c : ascii) : ascii :=
  if is_upper c then ascii_of_nat (nat_of_ascii c + 32) else c.

Definition upper_ascii (c : ascii) : ascii :=
  if is_lower c then ascii_of_nat (nat_of_ascii c - 32) else c.

(** [s.lower()] *)
Fixpoint lower (s : string) : string :=
  match s with
  | EmptyString => EmptyString
  | String c r => String (lower_ascii c) (lower r)
  end.

(** [s.upper()] *)
Fixpoint upper (s : string) : string :=
  match s with
  | EmptyString => EmptyString
  | String c r => String (upper_ascii c) (upper r)
  end.

(** [sep.join(parts)] *)
Fixpoint join (sep : string) (parts : list string) : string :=
  match parts with
  | [] => ""
  | [p] => p
  | p :: rest => p ++ sep ++ join sep rest
  end.

Definition dot : ascii := "."%char.

(** [s.split(".")]: the maximal dot-free pieces, left to right. *)
Fixpoint split_dot (s : string) : list string :=
  match s with
  | EmptyString => [""]
  | String c r =>
      if Ascii.eqb c dot then "" :: split_dot r
      else match split_dot r with
           | [] => [String c ""]
           | p :: ps => String c p :: ps
           end
  end.

(** [s.split(".")[-1]] *)
Definition last_part (s : string) : string := last (split_dot s) "".

(** [s.rsplit(".", 1)]: cut at the last dot, if there is one. *)
Definition rsplit_dot1 (s : string) : list string :=
  match rev (split_dot s) with
  | [] => [s]
  | [_] => [s]
  | l :: before => [join "." (rev before); l]
  end.

(** Python truthiness of a [str]. *)
Definition nonempty (s : string) : bool :=
  match s with EmptyString => false | _ => true end.

End Str.

(** Python truthiness of an [Optional[str]]. *)
Definition truthy (o : option string) : bool :=
  match o with
  | Some s => Str.nonempty s
  | None => false
  end.

(** ** models.py *)

Inductive EdgeType := TABLE_TO_TABLE | COLUMN_TO_COLUMN.

Definition EdgeType_eqb (a b : EdgeType) : bool :=
  match a, b with
  | TABLE_TO_TABLE, TABLE_TO_TABLE => true
  | COLUMN_TO_COLUMN, COLUMN_TO_COLUMN => true
  | _, _ => false
  end.

(** [EdgeType.value] *)
Definition EdgeType_value (t : EdgeType) : string :=
  match t with
  | TABLE_TO_TABLE => "table_to_table"
  | COLUMN_TO_COLUMN => "column_to_column"
  end.

Record Table := mkTable {
  t_name : string;
  t_schema_name : option string;
  t_database : option string;
  t_source_file : option string;
  t_is_cte : bool
}.

(** [Table(name=n)] with every other field at its default. *)
Definition Table_named (n : string) : Table := mkTable n None None None false.

Definition opt_part (o : option string) : list string :=
  match o with
  | Some s => if Str.nonempty s then [s] else []
  | None => []
  end.

(** [Table.qualified_name] *)
Definition table_qualified_name (t : Table) : string :=
  Str.join "." (opt_part (t_database t) ++ opt_part (t_schema_name t) ++ [t_name t]).


Record Column := mkColumn {
  c_name : string;
  c_table : option Table
}.

(** [Column.qualified_name] *)
Definition column_qualified_name (c : Column) : string :=
  match c_table c with
  | Some t => table_qualified_name t ++ "." ++ c_name c
  | None => c_name c
  end.

Record LineageEdge := mkEdge {
  e_source : string;
  e_target : string;
  e_edge_type : EdgeType;
  e_expression : option string;
  e_source_file : option string
}.

(** The tuple hashed by [LineageEdge.__hash__]: the dedup key. *)
Definition edge_key (e : LineageEdge) : string * string * EdgeType :=
  (Str.lower (e_source e), Str.lower (e_target e), e_edge_type e).

(** [LineageEdge.__eq__] *)
Definition LineageEdge_eqb (a b : LineageEdge) : bool :=
  String.eqb (Str.lower (e_source a)) (Str.lower (e_source b))
  && String.eqb (Str.lower (e_target a)) (Str.lower (e_target b))
  && EdgeType_eqb (e_edge_type a) (e_edge_type b).

Record TableNode := mkTableNode {
  tn_id : string;
  tn_name : string;
  tn_schema_name : option string;
  tn_database : option string;
  tn_source_file : option string;
  tn_is_cte : bool;
  tn_node_type : string
}.

Record ColumnNode := mkColumnNode {
  cn_id : string;
  cn_name : string;
  cn_table_id : string
}.

(** Insertion-ordered dictionaries with string keys. *)
Module Dict.

Definition t (V : Type) : Type := list (string * V).

Definition keys {V} (d : t V) : list string := map fst d.

Definition values {V} (d : t V) : list V := map snd d.

(** [d.get(k)] *)
Fixpoint get {V} (k : string) (d : t V) : option V :=
  match d with
  | [] => None
  | (k', v) :: r => if String.eqb k k' then Some v else get k r
  end.

(** [k in d] *)
Definition mem {V} (k : string) (d : t V) : bool :=
  match get k d with Some _ => true | None => false end.

(** [d[k] = v]: overwrite in place, or append a new key at the end. *)
Fixpoint set {V} (k : string) (v : V) (d : t V) : t V :=
  match d with
  | [] => [(k, v)]
  | (k', v') :: r =>
      if String.eqb k k' then (k', v) :: r else (k', v') :: set k v r
  end.

(** [d.setdefault(k, v)] (the dictionary afterwards). *)
Definition setdefault {V} (k : string) (v : V) (d : t V) : t V :=
  if mem k d then d else set k v d.

(** A well-formed dictionary holds each key once. *)
Definition wf {V} (d : t V) : Prop := NoDup (keys d).

End Dict.

(** [d.get(k, default)] *)
Definition dict_get_or {V} (k : string) (d : Dict.t V) (default : V) : V :=
  match Dict.get k d with Some v => v | None => default end.

Record LineageGraph := mkGraph {
  tables : Dict.t TableNode;
  columns : Dict.t ColumnNode;
  edges : list LineageEdge
}.

(** [LineageGraph()] *)
Definition empty_graph : LineageGraph := mkGraph [] [] [].

(** [edge in edges] (Python list membership through [__eq__]). *)
Definition edge_in (e : LineageEdge) (es : list LineageEdge) : bool :=
  existsb (LineageEdge_eqb e) es.

(** The node id [add_table] computes and returns. *)
Definition table_id (t : Table) : string := Str.lower (table_qualified_name t).

(** [LineageGraph.add_table]: the graph afterwards. *)
Definition add_table (t : Table) (node_type : string) (g : LineageGraph) : LineageGraph :=
  let node_id := table_id t in
  if Dict.mem node_id (tables g) then g
  else mkGraph
         (Dict.set node_id
            (mkTableNode node_id (t_name t) (t_schema_name t) (t_database t)
               (t_source_file t) (t_is_cte t) node_type)
            (tables g))
         (columns g) (edges g).

(** The node id [add_column] computes and returns. *)
Definition column_id (c : Column) : string := Str.lower (column_qualified_name c).

(** [LineageGraph.add_column]: the graph afterwards. *)
Definition add_column (c : Column) (g : LineageGraph) : LineageGraph :=
  let node_id := column_id c in
  let tid := match c_table c with
             | Some t => Str.lower (table_qualified_name t)
             | None => ""
             end in
  if Dict.mem node_id (columns g) then g
  else mkGraph (tables g)
         (Dict.set node_id (mkColumnNode node_id (c_name c) tid) (columns g))
         (edges g).

(** The list part of [add_edge]. *)
Definition add_edge_list (e : LineageEdge) (es : list LineageEdge) : list LineageEdge :=
  if edge_in e es then es else es ++ [e].

(** [LineageGraph.add_edge] *)
Definition add_edge (e : LineageEdge) (g : LineageGraph) : LineageGraph :=
  mkGraph (tables g) (columns g) (add_edge_list e (edges g)).

(** One pass of [for k, v in other.items(): if k not in self: self[k] = v]. *)
Definition merge_dict {V} (self other : Dict.t V) : Dict.t V :=
  fold_left (fun acc kv => if Dict.mem (fst kv) acc then acc
                           else Dict.set (fst kv) (snd kv) acc)
            other self.

(** [LineageGraph.merge], for [other] an object distinct from [self]. *)
Definition merge (self other : LineageGraph) : LineageGraph :=
  mkGraph (merge_dict (tables self) (tables other))
          (merge_dict (columns self) (columns other))
          (fold_left (fun acc e => add_edge_list e acc) (edges other) (edges self)).

(** [get_upstream] and [get_downstream]. *)
Definition get_upstream (g : LineageGraph) (node_id : string) : list string :=
  map e_source
      (filter (fun e => String.eqb (Str.lower (e_target e)) (Str.lower node_id)) (edges g)).

Definition get_downstream (g : LineageGraph) (node_id : string) : list string :=
  map e_target
      (filter (fun e => String.eqb (Str.lower (e_source e)) (Str.lower node_id)) (edges g)).

(** JSON values of the serialized graph: a Python dict literal is a
    [Dict.t json]. *)
Inductive json :=
| JStr (s : string)
| JBool (b : bool)
| JNull.

Definition json_opt (o : option string) : json :=
  match o with Some s => JStr s | None => JNull end.

Record D3 := mkD3 {
  nodes : list (Dict.t json);
  links : list (Dict.t json)
}.

Definition d3_table_node (n : TableNode) : Dict.t json :=
  [ ("id", JStr (tn_id n));
    ("name", JStr (tn_name n));
    ("type", JStr (tn_node_type n));
    ("schema", json_opt (tn_schema_name n));
    ("database", json_opt (tn_database n));
    ("source_file", json_opt (tn_source_file n));
    ("is_cte", JBool (tn_is_cte n));
    ("level", JStr "table") ].

Definition d3_column_node (n : ColumnNode) : Dict.t json :=
  [ ("id", JStr (cn_id n));
    ("name", JStr (cn_name n));
    ("type", JStr "column");
    ("table_id", JStr (cn_table_id n));
    ("table", JStr (cn_table_id n));
    ("level", JStr "column") ].

(** [if len(parts) == 2: link_data[k1] = parts[0]; link_data[k2] = parts[1]] *)
Definition d3_split_parts (k1 k2 : string) (parts : list string) (d : Dict.t json)
  : Dict.t json :=
  match parts with
  | [a; b] => Dict.set k2 (JStr b) (Dict.set k1 (JStr a) d)
  | _ => d
  end.

Definition d3_link (e : LineageEdge) : Dict.t json :=
  let link_data :=
    [ ("source", JStr (e_source e));
      ("target", JStr (e_target e));
      ("type", JStr (EdgeType_value (e_edge_type e)));
      ("expression", json_opt (e_expression e));
      ("source_file", json_opt (e_source_file e)) ] in
  match e_edge_type e with
  | COLUMN_TO_COLUMN =>
      d3_split_parts "target_table" "target_column" (Str.rsplit_dot1 (e_target e))
        (d3_split_parts "source_table" "source_column" (Str.rsplit_dot1 (e_source e))
           link_data)
  | TABLE_TO_TABLE => link_data
  end.

(** [LineageGraph.to_d3_json] *)
Definition to_d3_json (g : LineageGraph) : D3 :=
  mkD3 (map d3_table_node (Dict.values (tables g))
          ++ map d3_column_node (Dict.values (columns g)))
       (map d3_link (edges g)).

(** ** The syntax trees the extractor walks

    The parser is an external capability; the extractor only uses the shape
    of its trees: the class of a node, its arguments in order (a list-valued
    argument contributes one entry per element, all under the same key), its
    parent, and the accessors [name], [db], [catalog], [alias], [table], the
    [kind] argument of a [Create] and [sql()].  The parser gives every
    [Alias] its [this]; for a tree without it the model finds no column
    reference in the item. *)
Module exp.

Inductive kind :=
| Select | Insert | Create | Merge | CTE | With | Table | Schema
| Column | Alias | From | Join | Subquery | Star | Other.

Definition kind_eqb (a b : kind) : bool :=
  match a, b with
  | Select, Select | Insert, Insert | Create, Create | Merge, Merge
  | CTE, CTE | With, With | Table, Table | Schema, Schema
  | Column, Column | Alias, Alias | From, From | Join, Join
  | Subquery, Subquery | Star, Star | Other, Other => true
  | _, _ => false
  end.

Record attrs := mkAttrs {
  name : string;
  db : string;
  catalog : string;
  alias : string;
  table : string;
  create_kind : option string;
  sql : string
}.

Local Unset Elimination Schemes.

Inductive Expression :=
| Node (k : kind) (a : attrs) (args : list (string * Expression)).

Local Set Elimination Schemes.

Definition kind_of (e : Expression) : kind := match e with Node k _ _ => k end.
Definition attrs_of (e : Expression) : attrs := match e with Node _ a _ => a end.
Definition args_of (e : Expression) : list (string * Expression) :=
  match e with Node _ _ args => args end.

(** [isinstance(e, exp.K)] *)
Definition isinstance (e : Expression) (k : kind) : bool := kind_eqb (kind_of e) k.

(** [e.args.get(key)] for a single-valued argument, e.g. [e.this]. *)
Fixpoint arg (key : string) (args : list (string * Expression)) : option Expression :=
  match args with
  | [] => None
  | (k, v) :: r => if String.eqb key k then Some v else arg key r
  end.

Definition this (e : Expression) : option Expression := arg "this" (args_of e).

(** [e.expressions] *)
Definition expressions (e : Expression) : list Expression :=
  map snd (filter (fun kv => String.eqb (fst kv) "expressions") (args_of e)).

(** [e.iter_expressions()], each child paired with its parent [e]. *)
Definition children (e : Expression) : list (option Expression * Expression) :=
  map (fun kv => (Some e, snd kv)) (args_of e).

Fixpoint height (e : Expression) : nat :=
  match e with
  | Node _ _ args =>
      S ((fix hs (l : list (string * Expression)) : nat :=
            match l with
            | [] => 0
            | (_, c) :: r => Nat.max (height c) (hs r)
            end) args)
  end.

(** Breadth-first order, one level per round. *)
Fixpoint levels (rounds : nat) (frontier : list (option Expression * Expression))
  : list (option Expression * Expression) :=
  match rounds with
  | 0 => []
  | S n =>
      match frontier with
      | [] => []
      | _ => frontier ++ levels n (flat_map (fun pe => children (snd pe)) frontier)
      end
  end.

(** [e.walk()] (breadth-first, the default of [find] and [find_all]): every
    node of the tree, [e] first, with its [parent]. *)
Definition walk (e : Expression) : list (option Expression * Expression) :=
  levels (height e) [(None, e)].

(** [e.find_all(exp.K)], with the parent of every hit. *)
Definition find_all_p (k : kind) (e : Expression)
  : list (option Expression * Expression) :=
  filter (fun pe => isinstance (snd pe) k) (walk e).

(** [e.find_all(exp.K)] *)
Definition find_all (k : kind) (e : Expression) : list Expression :=
  map snd (find_all_p k e).

(** [e.find(exp.K)] *)
Definition find (k : kind) (e : Expression) : option Expression :=
  hd_error (find_all k e).

End exp.

(** ** extractor.py *)

Definition opt_of_str (s : string) : option string :=
  if Str.nonempty s then Some s else None.

(** [_parse_table_ref] *)
Definition _parse_table_ref (table_expr : exp.Expression) : Table :=
  let a := exp.attrs_of table_expr in
  mkTable (exp.name a) (opt_of_str (exp.db a)) (opt_of_str (exp.catalog a)) None false.

(** [isinstance(parent, (K1, ..., Kn))] for a parent that may be absent. *)
Definition parent_isinstance (p : option exp.Expression) (ks : list exp.kind) : bool :=
  match p with
  | Some e => existsb (exp.isinstance e) ks
  | None => false
  end.

(** The loop of [_get_source_tables] over the table references: [seen] holds
    the keys met so far, [sources] the tables kept. *)
Fixpoint source_loop (refs : list (option exp.Expression * exp.Expression))
         (seen : list string) (sources : list Table) : list Table :=
  match refs with
  | [] => sources
  | (parent, table_expr) :: rest =>
      if parent_isinstance parent [exp.Insert; exp.Create; exp.Merge] then
        source_loop rest seen sources
      else if parent_isinstance parent [exp.CTE] then
        source_loop rest seen sources
      else
        let table := _parse_table_ref table_expr in
        let key := Str.lower (table_qualified_name table) in
        if existsb (String.eqb key) seen then source_loop rest seen sources
        else source_loop rest (seen ++ [key]) (sources ++ [table])
  end.

(** [_get_source_tables] *)
Definition _get_source_tables (expression : exp.Expression) : list Table :=
  source_loop (exp.find_all_p exp.Table expression) [] [].

Definition this_table (e : exp.Expression) : option Table :=
  match exp.this e with
  | Some table_expr =>
      if exp.isinstance table_expr exp.Table then Some (_parse_table_ref table_expr)
      else None
  | None => None
  end.

(** [_get_target_table] *)
Definition _get_target_table (statement : exp.Expression) : option Table :=
  let from_insert :=
    if exp.isinstance statement exp.Insert then this_table statement else None in
  match from_insert with
  | Some t => Some t
  | None =>
    let from_create :=
      if exp.isinstance statement exp.Create then
        match this_table statement with
        | Some t => Some t
        | None =>
            match exp.this statement with
            | Some table_expr =>
                if exp.isinstance table_expr exp.Schema then this_table table_expr
                else None
            | None => None
            end
        end
      else None in
    match from_create with
    | Some t => Some t
    | None =>
        if exp.isinstance statement exp.Merge then this_table statement else None
    end
  end.

(** [_get_cte_names]: lowercased CTE alias mapped to the CTE's body. *)
Definition _get_cte_names (statement : exp.Expression) : Dict.t (option exp.Expression) :=
  match exp.find exp.With statement with
  | Some with_clause =>
      fold_left
        (fun ctes cte =>
           let alias := exp.alias (exp.attrs_of cte) in
           if Str.nonempty alias then Dict.set (Str.lower alias) (exp.this cte) ctes
           else ctes)
        (exp.find_all exp.CTE with_clause) []
  | None => []
  end.

(** The main SELECT of [_extract_column_lineage]. *)
Definition main_select (statement : exp.Expression) : option exp.Expression :=
  if exp.isinstance statement exp.Select then Some statement
  else exp.find exp.Select statement.

(** The body of both alias loops: the alias, if any, then the table's own
    name, each lowercased, map to the table. *)
Definition alias_entry (alias_map : Dict.t Table) (table_expr : exp.Expression)
  : Dict.t Table :=
  let tbl := _parse_table_ref table_expr in
  let alias := exp.alias (exp.attrs_of table_expr) in
  let m := if Str.nonempty alias then Dict.set (Str.lower alias) tbl alias_map
           else alias_map in
  Dict.set (Str.lower (t_name tbl)) tbl m.

Definition tables_under (k : exp.kind) (select : exp.Expression) : list exp.Expression :=
  flat_map (exp.find_all exp.Table) (exp.find_all k select).

Definition build_alias_map (select : exp.Expression) (source_tables : list Table)
  : Dict.t Table :=
  let m0 := fold_left (fun m table => Dict.set (Str.lower (t_name table)) table m)
                      source_tables [] in
  let m1 := fold_left alias_entry (tables_under exp.From select) m0 in
  fold_left alias_entry (tables_under exp.Join select) m1.

(** [target_col_name] and [inner] of one projected item. *)
Definition item_target (select_expr : exp.Expression)
  : option string * option exp.Expression :=
  if exp.isinstance select_expr exp.Alias then
    (Some (exp.alias (exp.attrs_of select_expr)), exp.this select_expr)
  else
    (if exp.isinstance select_expr exp.Column
     then Some (exp.name (exp.attrs_of select_expr)) else None,
     Some select_expr).

(** The column references looked at for one item. *)
Definition col_refs (inner : option exp.Expression) : list exp.Expression :=
  match inner with
  | Some i => if exp.isinstance i exp.Column then [i] else exp.find_all exp.Column i
  | None => []
  end.

(** Attribution of one column reference to a table. *)
Definition resolve_source_table (alias_map : Dict.t Table) (source_tables : list Table)
           (source_table_ref : string) : option Table :=
  if Str.nonempty source_table_ref then Dict.get (Str.lower source_table_ref) alias_map
  else if (List.length source_tables =? 1)%nat then hd_error source_tables
  else None.

(** The edges one column reference contributes (none for a star). *)
Definition col_ref_edges (alias_map : Dict.t Table) (source_tables : list Table)
           (source_file : option string) (select_expr : exp.Expression)
           (target_col : Column) (col_ref : exp.Expression) : list LineageEdge :=
  let source_col_name := exp.name (exp.attrs_of col_ref) in
  let source_table_ref := exp.table (exp.attrs_of col_ref) in
  if String.eqb source_col_name "*" then []
  else
    let source_table := resolve_source_table alias_map source_tables source_table_ref in
    let source_col := mkColumn source_col_name source_table in
    [ mkEdge (column_qualified_name source_col) (column_qualified_name target_col)
             COLUMN_TO_COLUMN (Some (exp.sql (exp.attrs_of select_expr))) source_file ].

(** The edges one projected item contributes. *)
Definition item_edges (alias_map : Dict.t Table) (target_table : Table)
           (source_tables : list Table) (source_file : option string)
           (select_expr : exp.Expression) : list LineageEdge :=
  match item_target select_expr with
  | (None, _) => []
  | (Some target_col_name, inner) =>
      if String.eqb target_col_name "*" then []
      else
        let target_col := mkColumn target_col_name (Some target_table) in
        flat_map (col_ref_edges alias_map source_tables source_file select_expr target_col)
                 (col_refs inner)
  end.

(** [_extract_column_lineage] *)
Definition _extract_column_lineage (statement : exp.Expression)
           (target_table : option Table) (source_tables : list Table)
           (source_file : option string) : list LineageEdge :=
  match target_table with
  | None => []
  | Some target =>
      match main_select statement with
      | None => []
      | Some select =>
          let alias_map := build_alias_map select source_tables in
          flat_map (item_edges alias_map target source_tables source_file)
                   (exp.expressions select)
      end
  end.

Definition with_source_file (sf : option string) (t : Table) : Table :=
  mkTable (t_name t) (t_schema_name t) (t_database t) sf (t_is_cte t).

Definition with_is_cte (b : bool) (t : Table) : Table :=
  mkTable (t_name t) (t_schema_name t) (t_database t) (t_source_file t) b.

(** [src.source_file = source_file; src.is_cte = src.name.lower() in ctes] *)
Definition tag_source (ctes : Dict.t (option exp.Expression)) (sf : option string)
           (src : Table) : Table :=
  with_is_cte (Dict.mem (Str.lower (t_name src)) ctes) (with_source_file sf src).

Definition cte_node_type (src : Table) : string :=
  if t_is_cte src then "cte" else "table".

(** Registration of the column node named by one endpoint of a column edge. *)
Definition register_endpoint (endpoint : string) (g : LineageGraph) : LineageGraph :=
  match Str.rsplit_dot1 endpoint with
  | [p0; p1] => add_column (mkColumn p1 (Some (Table_named (Str.last_part p0)))) g
  | _ => g
  end.

Definition add_col_edge (g : LineageGraph) (col_edge : LineageEdge) : LineageGraph :=
  add_edge col_edge
    (register_endpoint (e_target col_edge) (register_endpoint (e_source col_edge) g)).

(** The node type of the target: [view] for a [Create] whose kind is VIEW. *)
Definition target_node_type (statement : exp.Expression) : string :=
  if exp.isinstance statement exp.Create then
    match exp.create_kind (exp.attrs_of statement) with
    | Some k => if Str.nonempty k && String.eqb (Str.upper k) "VIEW" then "view"
                else "table"
    | None => "table"
    end
  else "table".

(** [_process_statement]: the graph afterwards. *)
Definition _process_statement (statement : exp.Expression) (graph : LineageGraph)
           (source_file : option string) (include_columns : bool) : LineageGraph :=
  let ctes := _get_cte_names statement in
  let target_table := _get_target_table statement in
  let source_tables := _get_source_tables statement in
  match target_table with
  | None =>
      if exp.isinstance statement exp.Select then
        fold_left (fun g src => let src' := tag_source ctes source_file src in
                                add_table src' (cte_node_type src') g)
                  source_tables graph
      else
        fold_left (fun g src => add_table (with_source_file source_file src) "table" g)
                  source_tables graph
  | Some target0 =>
      let target := with_source_file source_file target0 in
      let g1 := add_table target (target_node_type statement) graph in
      let g2 :=
        fold_left
          (fun g src =>
             let src' := tag_source ctes source_file src in
             add_edge (mkEdge (table_qualified_name src') (table_qualified_name target)
                              TABLE_TO_TABLE None source_file)
                      (add_table src' (cte_node_type src') g))
          source_tables g1 in
      if include_columns then
        fold_left add_col_edge
          (_extract_column_lineage statement (Some target)
             (map (tag_source ctes source_file) source_tables) source_file)
          g2
      else g2
  end.

(** [extract_lineage] *)
Definition extract_lineage (statements : list exp.Expression)
           (source_file : option string) (include_columns : bool) : LineageGraph :=
  fold_left (fun g statement => _process_statement statement g source_file include_columns)
            statements empty_graph.

(** ** parser.py and resolver.py *)

(** A call that returns or raises: [Exception msg] carries [str(e)]. *)
Inductive result (A : Type) :=
| Ok (a : A)
| Exception (msg : string).

Arguments Ok {A} a.
Arguments Exception {A} msg.

(** [SUPPORTED_DIALECTS] *)
Definition SUPPORTED_DIALECTS : Dict.t string :=
  map (fun d => (d, d))
      [ "ansi"; "bigquery"; "clickhouse"; "databricks"; "duckdb"; "hive"; "mysql";
        "oracle"; "postgres"; "presto"; "redshift"; "snowflake"; "spark"; "sqlite";
        "starrocks"; "tableau"; "teradata"; "trino"; "tsql" ].

(** [[stmt for stmt in statements if stmt is not None]] *)
Fixpoint drop_none {A} (l : list (option A)) : list A :=
  match l with
  | [] => []
  | Some a :: r => a :: drop_none r
  | None :: r => drop_none r
  end.

Section Resolver.

(** The external capabilities: [sqlglot.parse] (called with
    [error_level=WARN]), [Path.read_text] and [Path.name]. *)
Variable sqlglot_parse :
  string -> option string -> result (list (option exp.Expression)).
Variable read_text : string -> result string.
Variable path_name : string -> string.

(** [parse_sql] *)
Definition parse_sql (sql : string) (dialect : option string)
  : result (list exp.Expression) :=
  let resolved_dialect :=
    match dialect with
    | Some d =>
        if truthy dialect
        then Some (dict_get_or (Str.lower d) SUPPORTED_DIALECTS (Str.lower d))
        else None
    | None => None
    end in
  let statements :=
    match sqlglot_parse sql resolved_dialect with
    | Ok sts => Ok sts
    | Exception _ => sqlglot_parse sql None
    end in
  match statements with
  | Ok sts => Ok (drop_none sts)
  | Exception msg => Exception msg
  end.

(** [parse_file] *)
Definition parse_file (file_path : string) (dialect : option string)
  : result (list exp.Expression) :=
  match read_text file_path with
  | Ok sql_content => parse_sql sql_content dialect
  | Exception msg => Exception msg
  end.

(** The line printed by the [except] branch. *)
Definition warning (file_name msg : string) : string :=
  "Warning: Error processing " ++ file_name ++ ": " ++ msg.

(** One round of the resolver loops: the [try] body on success, the
    [except] branch otherwise.  The state is the unified graph and the
    lines printed so far. *)
Definition resolve_one (include_columns : bool) (file_name : string)
           (parsed : result (list exp.Expression))
           (st : LineageGraph * list string) : LineageGraph * list string :=
  match parsed with
  | Ok statements =>
      (merge (fst st) (extract_lineage statements (Some file_name) include_columns),
       snd st)
  | Exception msg => (fst st, (snd st ++ [warning file_name msg])%list)
  end.

(** [resolve_sql_strings]: the unified graph and the printed lines. *)
Definition resolve_sql_strings (sql_strings : list (string * string))
           (dialect : option string) (include_columns : bool)
  : LineageGraph * list string :=
  fold_left (fun st item =>
               resolve_one include_columns (fst item) (parse_sql (snd item) dialect) st)
            sql_strings (empty_graph, []).

(** [resolve_files]: the unified graph and the printed lines. *)
Definition resolve_files (file_paths : list string)
           (dialect : option string) (include_columns : bool)
  : LineageGraph * list string :=
  fold_left (fun st file_path =>
               resolve_one include_columns (path_name file_path)
                           (parse_file file_path dialect) st)
            file_paths (empty_graph, []).

End Resolver.

(** What a loop can do: return, raise (the exception is named), or still be
    running when the fuel of the model is spent. *)
Inductive outcome (A : Type) :=
| Done (a : A)
| Raised (exn : string)
| OutOfFuel.

Arguments Done {A} a.
Arguments Raised {A} exn.
Arguments OutOfFuel {A}.

(** *** [g.merge(g)]: [other] is [self]

    The three loops of [merge] then iterate over the containers they may
    write to.  A list iterator reads position [i] of the live list and stops
    when [i] is past its end; a dict iterator raises [RuntimeError] as soon
    as the dict has changed size. *)
Fixpoint merge_dict_live {V} (fuel i : nat) (d : Dict.t V) : outcome (Dict.t V) :=
  match fuel with
  | 0 => OutOfFuel
  | S fuel' =>
      match nth_error d i with
      | None => Done d
      | Some (k, _) =>
          if Dict.mem k d then merge_dict_live fuel' (S i) d
          else Raised "RuntimeError"
      end
  end.

Fixpoint merge_edges_live (fuel i : nat) (es : list LineageEdge)
  : outcome (list LineageEdge) :=
  match fuel with
  | 0 => OutOfFuel
  | S fuel' =>
      match nth_error es i with
      | None => Done es
      | Some e => merge_edges_live fuel' (S i) (add_edge_list e es)
      end
  end.

Definition merge_self (g : LineageGraph) : outcome LineageGraph :=
  match merge_dict_live (S (List.length (tables g))) 0 (tables g) with
  | Done ts =>
      match merge_dict_live (S (List.length (columns g))) 0 (columns g) with
      | Done cs =>
          match merge_edges_live (S (List.length (edges g))) 0 (edges g) with
          | Done es => Done (mkGraph ts cs es)
          | Raised x => Raised x
          | OutOfFuel => OutOfFuel
          end
      | Raised x => Raised x
      | OutOfFuel => OutOfFuel
      end
  | Raised x => Raised x
  | OutOfFuel => OutOfFuel
  end.

(** [s.add(x)] on a set kept as a duplicate-free list. *)
Definition set_add (x : string) (s : list string) : list string :=
  if existsb (String.eqb x) s then s else s ++ [x].

(** [x in l] for a list of strings. *)
Definition str_in (x : string) (l : list string) : bool := existsb (String.eqb x) l.

(** [l.index(x)] when [x] occurs. *)
Fixpoint index (x : string) (l : list string) : option nat :=
  match l with
  | [] => None
  | y :: r => if String.eqb x y then Some 0
              else match index x r with Some i => Some (S i) | None => None end
  end.

Section ExecutionOrder.

(** The order in which Python iterates a set of strings depends on the
    hash seed of the process; [set_iter] is any such order. *)
Variable set_iter : list string -> list string.
Hypothesis set_iter_perm : forall s, Permutation (set_iter s) s.

(** First loop of [get_execution_order]. *)
Definition init_tables (g : LineageGraph) : Dict.t (list string) * Dict.t Z :=
  fold_left (fun st table_id =>
               (Dict.setdefault table_id [] (fst st), Dict.setdefault table_id 0%Z (snd st)))
            (Dict.keys (tables g)) ([], []).

(** Body of the second loop. *)
Definition add_dependency (st : Dict.t (list string) * Dict.t Z) (edge : LineageEdge)
  : Dict.t (list string) * Dict.t Z :=
  if String.eqb (EdgeType_value (e_edge_type edge)) "table_to_table" then
    let src := Str.lower (e_source edge) in
    let tgt := Str.lower (e_target edge) in
    if Dict.mem src (fst st) && Dict.mem tgt (snd st) then
      (Dict.set src (set_add tgt (dict_get_or src (fst st) [])) (fst st),
       Dict.set tgt (dict_get_or tgt (snd st) 0 + 1)%Z (snd st))
    else st
  else st.

Definition build (g : LineageGraph) : Dict.t (list string) * Dict.t Z :=
  fold_left add_dependency (edges g) (init_tables g).

(** The [for neighbor in ...] loop. *)
Fixpoint relax (neighbors : list string) (in_degree : Dict.t Z) (queue : list string)
  : outcome (Dict.t Z * list string) :=
  match neighbors with
  | [] => Done (in_degree, queue)
  | neighbor :: rest =>
      match Dict.get neighbor in_degree with
      | None => Raised "KeyError"
      | Some d =>
          let in_degree' := Dict.set neighbor (d - 1)%Z in_degree in
          let queue' := if (d - 1 =? 0)%Z then (queue ++ [neighbor])%list else queue in
          relax rest in_degree' queue'
      end
  end.

(** The [while queue:] loop. *)
Fixpoint kahn (fuel : nat) (adj : Dict.t (list string)) (in_degree : Dict.t Z)
         (queue order : list string) : outcome (list string) :=
  match queue with
  | [] => Done order
  | node :: queue0 =>
      match fuel with
      | 0 => OutOfFuel
      | S fuel' =>
          match relax (set_iter (dict_get_or node adj [])) in_degree queue0 with
          | Done (in_degree', queue') =>
              kahn fuel' adj in_degree' queue' (order ++ [node])%list
          | Raised x => Raised x
          | OutOfFuel => OutOfFuel
          end
      end
  end.

(** [get_execution_order] *)
Definition get_execution_order (g : LineageGraph) : outcome (list string) :=
  let '(adj, in_degree) := build g in
  let queue := map fst (filter (fun nd => (snd nd =? 0)%Z) in_degree) in
  match kahn (List.length (Dict.keys (tables g))) adj in_degree queue [] with
  | Done order =>
      Done (order ++ filter (fun t => negb (str_in t order)) (Dict.keys (tables g)))%list
  | Raised x => Raised x
  | OutOfFuel => OutOfFuel
  end.

End ExecutionOrder.

(** ** Notions used to state the properties *)

(** Graphs obtained from [LineageGraph()] by the mutating methods; [merge]
    may bring in any graph. *)
Inductive reachable : LineageGraph -> Prop :=
| reach_empty : reachable empty_graph
| reach_add_table t node_type g : reachable g -> reachable (add_table t node_type g)
| reach_add_column c g : reachable g -> reachable (add_column c g)
| reach_add_edge e g : reachable g -> reachable (add_edge e g)
| reach_merge g other : reachable g -> reachable (merge g other).

(** No two stored edges share the dedup key. *)
Definition edges_dedup (g : LineageGraph) : Prop := NoDup (map edge_key (edges g)).

(** [u -> v] is a table-to-table dependency the engine takes into account:
    some [TableToTable] edge has these lowercased endpoints, both registered. *)
Definition tt_edge (g : LineageGraph) (u v : string) : Prop :=
  exists e, In e (edges g)
            /\ e_edge_type e = TABLE_TO_TABLE
            /\ Str.lower (e_source e) = u
            /\ Str.lower (e_target e) = v
            /\ In u (Dict.keys (tables g))
            /\ In v (Dict.keys (tables g)).

(** The edge [u -> v] lies on a cycle: [v] leads back to [u]. *)
Definition on_cycle (g : LineageGraph) (u v : string) : Prop :=
  clos_refl_trans string (tt_edge g) v u.

(** [u] lies on a cycle or downstream of one. *)
Definition below_cycle (g : LineageGraph) (u : string) : Prop :=
  exists c, clos_trans string (tt_edge g) c c /\ clos_refl_trans string (tt_edge g) c u.

(** [order.index(u) < order.index(v)] *)
Definition precedes (u v : string) (order : list string) : Prop :=
  exists i j, index u order = Some i /\ index v order = Some j /\ i < j.

(** The lowercased sources of the dependencies into [v] that the engine
    counts among the edges [es], in edge order; [K] are the table ids. *)
Definition counted (K : list string) (v : string) (e : LineageEdge) : bool :=
  EdgeType_eqb (e_edge_type e) TABLE_TO_TABLE
  && str_in (Str.lower (e_source e)) K
  && str_in (Str.lower (e_target e)) K
  && String.eqb (Str.lower (e_target e)) v.

Definition preds_in (K : list string) (es : list LineageEdge) (v : string) : list string :=
  map (fun e => Str.lower (e_source e)) (filter (counted K v) es).

Definition preds (g : LineageGraph) (v : string) : list string :=
  preds_in (Dict.keys (tables g)) (edges g) v.

(** *** Invariants of the loops of [get_execution_order] *)

(** [in_degree[x]], 0 for an absent key. *)
Definition deg (in_degree : Dict.t Z) (x : string) : Z := dict_get_or x in_degree 0%Z.

(** State of the second loop after the edges [done]. *)
Definition build_inv (K : list string) (done : list LineageEdge)
           (st : Dict.t (list string) * Dict.t Z) : Prop :=
  Dict.keys (fst st) = K
  /\ Dict.keys (snd st) = K
  /\ (forall v, deg (snd st) v = Z.of_nat (List.length (preds_in K done v)))
  /\ (forall u, NoDup (dict_get_or u (fst st) []))
  /\ (forall u v, In v (dict_get_or u (fst st) []) <-> In u (preds_in K done v)).

(** What holds of the [while] loop on every graph: nodes placed or queued
    are distinct table ids whose in-degree is used up. *)
Definition queue_inv (K : list string) (in_degree : Dict.t Z)
           (queue order : list string) : Prop :=
  Dict.keys in_degree = K
  /\ NoDup (order ++ queue)
  /\ incl (order ++ queue) K
  /\ (forall x, In x (order ++ queue) -> (deg in_degree x <= 0)%Z).

(** What holds in addition when the counted predecessors [P] hold no
    duplicate: the in-degree of a node is the number of its predecessors not
    yet placed, a node without such a predecessor is placed or queued, and a
    placed node comes after all its predecessors. *)
Definition kahn_inv (K : list string) (P : string -> list string)
           (in_degree : Dict.t Z) (queue order : list string) : Prop :=
  (forall x, deg in_degree x
             = Z.of_nat (List.length (filter (fun p => negb (str_in p order)) (P x))))
  /\ (forall x, In x K -> deg in_degree x = 0%Z -> In x (order ++ queue))
  /\ (forall l1 x l2, order = (l1 ++ x :: l2)%list -> incl (P x) l1).

(** [g] holds every table id, every column id and (up to the dedup key) every
    edge of [h]. *)
Definition holds_all (g h : LineageGraph) : Prop :=
  incl (Dict.keys (tables h)) (Dict.keys (tables g))
  /\ incl (Dict.keys (columns h)) (Dict.keys (columns g))
  /\ forall e, In e (edges h) -> edge_in e (edges g) = true.

(** The value a JSON object holds under a key, when it is a string. *)
Definition jfield (k : string) (o : Dict.t json) : option string :=
  match Dict.get k o with
  | Some (JStr s) => Some s
  | _ => None
  end.

(** A graph as the mutating methods build it: both dicts hold each key
    once, every node is stored under its own lowercase id, and no two edges
    share the dedup key. *)
Definition well_formed (g : LineageGraph) : Prop :=
  Dict.wf (tables g)
  /\ Dict.wf (columns g)
  /\ edges_dedup g
  /\ (forall k n, In (k, n) (tables g) -> tn_id n = k /\ Str.lower k = k)
  /\ (forall k n, In (k, n) (columns g) -> cn_id n = k /\ Str.lower k = k).

(** The tables without a counted dependency into them, in registration
    order. *)
Definition roots (g : LineageGraph) : list string :=
  filter (fun t => match preds g t with [] => true | _ :: _ => false end)
         (Dict.keys (tables g)).

(** The edge counts reported by the [analyze] endpoint ([total_edges],
    [table_edges], [column_edges]) and, for the last two, by the text report
    of the command line. *)
Definition table_edges (g : LineageGraph) : list LineageEdge :=
  filter (fun e => String.eqb (EdgeType_value (e_edge_type e)) "table_to_table") (edges g).

Definition column_edges (g : LineageGraph) : list LineageEdge :=
  filter (fun e => String.eqb (EdgeType_value (e_edge_type e)) "column_to_column") (edges g).

(** A table reference that [_get_source_tables] passes over: its parent is
    an [Insert], [Create], [Merge] or [CTE] node. *)
Definition skipped_ref (parent : option exp.Expression) : bool :=
  parent_isinstance parent [exp.Insert; exp.Create; exp.Merge]
  || parent_isinstance parent [exp.CTE].

(** Every table-level edge joins two registered table nodes. *)
Definition endpoints_registered (g : LineageGraph) : Prop :=
  forall e, In e (edges g) ->
            e_edge_type e = TABLE_TO_TABLE ->
            In (Str.lower (e_source e)) (Dict.keys (tables g))
            /\ In (Str.lower (e_target e)) (Dict.keys (tables g)).

(** The line the resolver prints for an item, if any. *)
Definition warning_of (file_name : string) (parsed : result (list exp.Expression))
  : list string :=
  match parsed with
  | Ok _ => []
  | Exception msg => [warning file_name msg]
  end.

(** Whether an item went through. *)
Definition parsed_ok (parsed : result (list exp.Expression)) : bool :=
  match parsed with Ok _ => true | Exception _ => false end.

(** The table-to-table dependencies have no cycle. *)
Definition acyclic (g : LineageGraph) : Prop :=
  forall c, ~ clos_trans string (tt_edge g) c c.

(** Sample statements, as the parser shapes them. *)
Module Samples.

Definition no_attrs : exp.attrs := exp.mkAttrs "" "" "" "" "" None "".

(** A table reference [n]. *)
Definition tbl (n : string) : exp.Expression :=
  exp.Node exp.Table (exp.mkAttrs n "" "" "" "" None n) [].

(** A column reference [q.n], or [n] for an empty qualifier. *)
Definition col (q n : string) : exp.Expression :=
  exp.Node exp.Column
           (exp.mkAttrs n "" "" "" q None (if Str.nonempty q then q ++ "." ++ n else n)) [].

Definition star : exp.Expression := exp.Node exp.Star (exp.mkAttrs "*" "" "" "" "" None "*") [].

Definition from (e : exp.Expression) : exp.Expression :=
  exp.Node exp.From no_attrs [("this", e)].

Definition eq (a b : exp.Expression) : exp.Expression :=
  exp.Node exp.Other no_attrs [("this", a); ("expression", b)].

Definition join (e on : exp.Expression) : exp.Expression :=
  exp.Node exp.Join no_attrs [("this", e); ("on", on)].

Definition select (items : list exp.Expression) (rest : list (string * exp.Expression))
  : exp.Expression :=
  exp.Node exp.Select no_attrs (map (fun i => ("expressions", i)) items ++ rest)%list.

Definition create (k : string) (target query : exp.Expression) : exp.Expression :=
  exp.Node exp.Create (exp.mkAttrs "" "" "" "" "" (Some k) "")
           [("this", target); ("expression", query)].

(** [CREATE TABLE Target AS SELECT id FROM Source] *)
Definition ctas_mixed_case : exp.Expression :=
  create "TABLE" (tbl "Target") (select [col "" "id"] [("from", from (tbl "Source"))]).

(** [CREATE TABLE t AS SELECT id FROM a JOIN b ON a.k = b.k] *)
Definition ctas_join : exp.Expression :=
  create "TABLE" (tbl "t")
         (select [col "" "id"]
                 [("from", from (tbl "a"));
                  ("joins", join (tbl "b") (eq (col "a" "k") (col "b" "k")))]).

(** [MERGE INTO target USING source ON target.id = source.id
     WHEN MATCHED THEN UPDATE SET target.v = source.v] *)
Definition merge_using : exp.Expression :=
  exp.Node exp.Merge no_attrs
           [("this", tbl "target");
            ("using", tbl "source");
            ("on", eq (col "target" "id") (col "source" "id"));
            ("whens", exp.Node exp.Other no_attrs
                        [("expressions",
                          exp.Node exp.Other no_attrs
                            [("then", exp.Node exp.Other no_attrs
                                        [("expressions",
                                          eq (col "target" "v") (col "source" "v"))])])])].

(** [CREATE TABLE t (a INT) AS SELECT a FROM s] *)
Definition ctas_schema : exp.Expression :=
  create "TABLE"
         (exp.Node exp.Schema no_attrs
                   [("this", tbl "t"); ("expressions", exp.Node exp.Other no_attrs [])])
         (select [col "" "a"] [("from", from (tbl "s"))]).

(** A table reference [schema.n]. *)
Definition qtbl (schema n : string) : exp.Expression :=
  exp.Node exp.Table (exp.mkAttrs n schema "" "" "" None (schema ++ "." ++ n)) [].

(** [CREATE TABLE schema_a.target AS SELECT id FROM schema_b.source] *)
Definition ctas_qualified : exp.Expression :=
  create "TABLE" (qtbl "schema_a" "target")
         (select [col "" "id"] [("from", from (qtbl "schema_b" "source"))]).

(** [CREATE TABLE x AS SELECT * FROM y] *)
Definition copy_of (x y : string) : exp.Expression :=
  create "TABLE" (tbl x) (select [star] [("from", from (tbl y))]).

(** The pipeline [c <- b], [a <- b], [b <- a] of three statements. *)
Definition cyclic_pipeline : LineageGraph :=
  extract_lineage [copy_of "c" "b"; copy_of "a" "b"; copy_of "b" "a"] None false.

(** The diamond of the resolver tests: [b <- a], [c <- a], [d <- b JOIN c]. *)
Definition diamond : LineageGraph :=
  extract_lineage
    [ copy_of "b" "a"; copy_of "c" "a";
      create "TABLE" (tbl "d")
             (select [star] [("from", from (tbl "b"));
                             ("joins", join (tbl "c") (eq (col "b" "id") (col "c" "id")))]) ]
    None false.

(** A parser that rejects the text [THIS IS NOT VALID SQL] and reads every
    other text as [CREATE TABLE Target AS SELECT id FROM Source] followed by
    an empty statement. *)
Definition toy_parse (sql : string) (dialect : option string)
  : result (list (option exp.Expression)) :=
  if String.eqb sql "THIS IS NOT VALID SQL" then Exception "ParseError"
  else Ok [Some ctas_mixed_case; None].


End Samples.

(** * Properties *)

(** ** Dictionaries *)

Lemma dict_get_set_eq V (k : string) (v : V) d : Dict.get k (Dict.set k v d) = Some v.
Proof.
  induction d as [|[k' v'] r IH]; simpl.
  - now rewrite String.eqb_refl.
  - destruct (String.eqb k k') eqn:E; simpl; rewrite E; auto.
Qed.

Lemma dict_get_set_neq V (k k' : string) (v : V) d :
  k <> k' -> Dict.get k' (Dict.set k v d) = Dict.get k' d.
Proof.
  intros N. induction d as [|[k0 v0] r IH]; simpl.
  - destruct (String.eqb k' k) eqn:E; auto.
    apply String.eqb_eq in E. congruence.
  - destruct (String.eqb k k0) eqn:E; simpl.
    + apply String.eqb_eq in E. subst k0.
      destruct (String.eqb k' k) eqn:E'; auto.
      apply String.eqb_eq in E'. congruence.
    + now rewrite IH.
Qed.

Lemma dict_mem_keys V (k : string) (d : Dict.t V) :
  Dict.mem k d = true <-> In k (Dict.keys d).
Proof.
  unfold Dict.mem. induction d as [|[k' v'] r IH]; simpl.
  - split; [discriminate | tauto].
  - destruct (String.eqb k k') eqn:E.
    + apply String.eqb_eq in E. subst. tauto.
    + apply String.eqb_neq in E. rewrite IH. split; [tauto|].
      intros [H|H]; [congruence | exact H].
Qed.

Lemma dict_mem_false_keys V (k : string) (d : Dict.t V) :
  Dict.mem k d = false <-> ~ In k (Dict.keys d).
Proof.
  rewrite <- dict_mem_keys. destruct (Dict.mem k d); split; congruence.
Qed.

Lemma dict_mem_set V (k : string) (v : V) d : Dict.mem k (Dict.set k v d) = true.
Proof. unfold Dict.mem. now rewrite dict_get_set_eq. Qed.

Lemma dict_mem_set_other V (k k' : string) (v : V) d :
  Dict.mem k' d = true -> Dict.mem k' (Dict.set k v d) = true.
Proof.
  intros H. destruct (string_dec k k') as [->|N].
  - apply dict_mem_set.
  - unfold Dict.mem in *. now rewrite dict_get_set_neq.
Qed.

Lemma dict_keys_set_present V (k : string) (v : V) d :
  Dict.mem k d = true -> Dict.keys (Dict.set k v d) = Dict.keys d.
Proof.
  unfold Dict.mem, Dict.keys. induction d as [|[k' v'] r IH]; simpl.
  - discriminate.
  - destruct (String.eqb k k') eqn:E; simpl; auto.
    intros H. now rewrite IH.
Qed.

Lemma dict_keys_set_fresh V (k : string) (v : V) d :
  Dict.mem k d = false -> Dict.keys (Dict.set k v d) = (Dict.keys d ++ [k])%list.
Proof.
  unfold Dict.mem, Dict.keys. induction d as [|[k' v'] r IH]; simpl; auto.
  destruct (String.eqb k k') eqn:E; simpl.
  - discriminate.
  - intros H. now rewrite IH.
Qed.

Lemma dict_in_mem V (k : string) (v : V) d : In (k, v) d -> Dict.mem k d = true.
Proof.
  intros H. apply dict_mem_keys. unfold Dict.keys.
  change k with (fst (k, v)). now apply in_map.
Qed.

(** ** Edge equality and the dedup key *)

Lemma EdgeType_eqb_eq a b : EdgeType_eqb a b = true <-> a = b.
Proof. destruct a, b; simpl; split; congruence. Qed.

Lemma LineageEdge_eqb_key a b : LineageEdge_eqb a b = true <-> edge_key a = edge_key b.
Proof.
  unfold LineageEdge_eqb, edge_key.
  rewrite !andb_true_iff, !String.eqb_eq, EdgeType_eqb_eq.
  split.
  - intros [[-> ->] ->]. reflexivity.
  - intros H. inversion H. auto.
Qed.

Lemma LineageEdge_eqb_refl e : LineageEdge_eqb e e = true.
Proof. now apply LineageEdge_eqb_key. Qed.

Lemma edge_in_key e es :
  edge_in e es = true <-> In (edge_key e) (map edge_key es).
Proof.
  unfold edge_in. rewrite existsb_exists, in_map_iff. split.
  - intros [x [Hx E]]. exists x. apply LineageEdge_eqb_key in E. auto.
  - intros [x [E Hx]]. exists x. split; auto. now apply LineageEdge_eqb_key.
Qed.

Lemma edge_in_self e es : In e es -> edge_in e es = true.
Proof. intros H. apply edge_in_key. now apply in_map. Qed.

Lemma add_edge_list_present e es : edge_in e es = true -> add_edge_list e es = es.
Proof. unfold add_edge_list. now intros ->. Qed.

Lemma add_edge_list_dedup e es :
  NoDup (map edge_key es) -> NoDup (map edge_key (add_edge_list e es)).
Proof.
  intros H. unfold add_edge_list. destruct (edge_in e es) eqn:E; auto.
  rewrite map_app. simpl.
  apply NoDup_rev in H. rewrite <- (rev_involutive (_ ++ _)).
  apply NoDup_rev. rewrite rev_app_distr. simpl. constructor; auto.
  rewrite <- in_rev. intros C. apply edge_in_key in C. congruence.
Qed.

Lemma fold_add_edge_dedup other es :
  NoDup (map edge_key es) ->
  NoDup (map edge_key (fold_left (fun acc e => add_edge_list e acc) other es)).
Proof.
  revert es. induction other as [|e r IH]; simpl; auto.
  intros es H. apply IH. now apply add_edge_list_dedup.
Qed.

Lemma reachable_dedup g : reachable g -> edges_dedup g.
Proof.
  unfold edges_dedup. induction 1; simpl.
  - constructor.
  - unfold add_table. destruct (Dict.mem _ _); auto.
  - unfold add_column. destruct (Dict.mem _ _); auto.
  - now apply add_edge_list_dedup.
  - now apply fold_add_edge_dedup.
Qed.

(** C4. In every graph built from the empty graph by [add_table],
    [add_column], [add_edge] and [merge] (of any graph), no two stored edges
    share the dedup key (lowercased source, lowercased target, kind); and
    [add_edge] of an edge whose key equals that of a stored edge leaves the
    graph as it was. *)
Theorem edges_never_duplicated (g : LineageGraph) :
  reachable g ->
  NoDup (map edge_key (edges g))
  /\ forall e e', In e' (edges g) -> edge_key e' = edge_key e -> add_edge e g = g.
Proof.
  intros R. split.
  - now apply reachable_dedup.
  - intros e e' Hin K. unfold add_edge.
    rewrite add_edge_list_present.
    + now destruct g.
    + apply edge_in_key. rewrite <- K. now apply in_map.
Qed.

Lemma edges_never_duplicated_witness :
  let g := add_edge (mkEdge "Source" "Target" TABLE_TO_TABLE None (Some "a.sql")) empty_graph in
  NoDup (map edge_key (edges g))
  /\ add_edge (mkEdge "SOURCE" "target" TABLE_TO_TABLE (Some "x") (Some "b.sql")) g = g.
Proof.
  intros g.
  destruct (@edges_never_duplicated g) as [H1 H2].
  - unfold g. apply reach_add_edge. apply reach_empty.
  - split; [exact H1|].
    apply (H2 _ (mkEdge "Source" "Target" TABLE_TO_TABLE None (Some "a.sql"))).
    + simpl. left. reflexivity.
    + reflexivity.
Defined.

(** ** Node identity *)

Lemma add_table_present t node_type g :
  Dict.mem (table_id t) (tables g) = true -> add_table t node_type g = g.
Proof. unfold add_table. now intros ->. Qed.

Lemma add_table_registers t node_type g :
  Dict.mem (table_id t) (tables (add_table t node_type g)) = true.
Proof.
  unfold add_table. destruct (Dict.mem (table_id t) (tables g)) eqn:E; simpl; auto.
  apply dict_mem_set.
Qed.





(** ** First writer wins *)

Lemma merge_dict_keeps V (other self : Dict.t V) id :
  Dict.mem id self = true ->
  Dict.mem id (merge_dict self other) = true
  /\ Dict.get id (merge_dict self other) = Dict.get id self.
Proof.
  unfold merge_dict. revert self.
  induction other as [|[k v] r IH]; simpl; intros self M; auto.
  destruct (Dict.mem k self) eqn:E.
  - now apply IH.
  - assert (N : k <> id) by (intros ->; congruence).
    destruct (IH (Dict.set k v self)) as [A B].
    + now apply dict_mem_set_other.
    + split; auto. rewrite B. now apply dict_get_set_neq.
Qed.

Lemma add_edge_list_prefix e es :
  exists suffix, add_edge_list e es = (es ++ suffix)%list
                 /\ forall x, In x suffix -> edge_in x es = false.
Proof.
  unfold add_edge_list. destruct (edge_in e es) eqn:E.
  - exists []. split; [now rewrite app_nil_r | intros x []].
  - exists [e]. split; auto. intros x [<-|[]]. exact E.
Qed.

Lemma edge_in_app x es1 es2 :
  edge_in x (es1 ++ es2) = edge_in x es1 || edge_in x es2.
Proof. unfold edge_in. apply existsb_app. Qed.

Lemma fold_add_edge_prefix other es :
  exists suffix,
    fold_left (fun acc e => add_edge_list e acc) other es = (es ++ suffix)%list
    /\ forall x, In x suffix -> edge_in x es = false.
Proof.
  revert es. induction other as [|e r IH]; simpl; intros es.
  - exists []. split; [now rewrite app_nil_r | intros x []].
  - destruct (add_edge_list_prefix e es) as [s1 [E1 F1]].
    destruct (IH (add_edge_list e es)) as [s2 [E2 F2]].
    exists (s1 ++ s2)%list. split.
    + rewrite E2, E1. now rewrite app_assoc.
    + intros x Hx. apply in_app_or in Hx. destruct Hx as [Hx|Hx]; auto.
      specialize (F2 x Hx). rewrite E1, edge_in_app in F2.
      now apply orb_false_iff in F2.
Qed.

(** C9. What a graph stores is never rewritten.  A node id already present
    keeps its node through [add_table], [add_column] and [merge] (name,
    schema, database, source attribution, is_cte and node type are all fields
    of that node), and [add_table] / [add_column] on a present id leave the
    whole graph as it was.  The stored edges stay, in place, a prefix of the
    edge list after [add_edge] and [merge] (so their expression text and
    source attribution stay), nothing appended collides with a stored edge,
    and an [add_edge] that collides appends nothing. *)
Theorem first_writer_wins (g : LineageGraph) :
  (forall t node_type id,
      Dict.mem id (tables g) = true ->
      Dict.get id (tables (add_table t node_type g)) = Dict.get id (tables g)
      /\ (id = table_id t -> add_table t node_type g = g))
  /\ (forall c id,
         Dict.mem id (columns g) = true ->
         Dict.get id (columns (add_column c g)) = Dict.get id (columns g)
         /\ (id = column_id c -> add_column c g = g))
  /\ (forall other id,
         (Dict.mem id (tables g) = true ->
          Dict.get id (tables (merge g other)) = Dict.get id (tables g))
         /\ (Dict.mem id (columns g) = true ->
             Dict.get id (columns (merge g other)) = Dict.get id (columns g)))
  /\ (forall e,
         (exists suffix, edges (add_edge e g) = (edges g ++ suffix)%list
                         /\ forall x, In x suffix -> edge_in x (edges g) = false)
         /\ (edge_in e (edges g) = true -> edges (add_edge e g) = edges g))
  /\ (forall other,
         exists suffix, edges (merge g other) = (edges g ++ suffix)%list
                        /\ forall x, In x suffix -> edge_in x (edges g) = false).
Proof.
  split; [|split; [|split; [|split]]].
  - intros t node_type id M. split.
    + unfold add_table.
      destruct (Dict.mem (table_id t) (tables g)) eqn:E; simpl; auto.
      apply dict_get_set_neq. intros <-. congruence.
    + intros ->. now apply add_table_present.
  - intros c id M. split.
    + unfold add_column. fold (column_id c).
      destruct (Dict.mem (column_id c) (columns g)) eqn:E; simpl; auto.
      apply dict_get_set_neq. intros <-. congruence.
    + intros ->. unfold add_column. fold (column_id c). now rewrite M.
  - intros other id. split; intros M; simpl; now apply merge_dict_keeps.
  - intros e. split.
    + simpl. apply add_edge_list_prefix.
    + intros M. simpl. now apply add_edge_list_present.
  - intros other. simpl. apply fold_add_edge_prefix.
Qed.

Lemma first_writer_wins_witness :
  let g := add_table (mkTable "Orders" (Some "Sales") None (Some "a.sql") false) "view"
                     empty_graph in
  Dict.get "sales.orders"
           (tables (add_table (mkTable "orders" (Some "sales") None (Some "b.sql") true)
                              "cte" g))
  = Dict.get "sales.orders" (tables g).
Proof.
  intros g.
  destruct (@first_writer_wins g) as [H _].
  apply (H (mkTable "orders" (Some "sales") None (Some "b.sql") true) "cte" "sales.orders").
  reflexivity.
Defined.

(** ** Idempotence of [merge] *)

Lemma merge_dict_self_gen V (other self : Dict.t V) :
  (forall kv, In kv other -> Dict.mem (fst kv) self = true) ->
  merge_dict self other = self.
Proof.
  unfold merge_dict. induction other as [|kv r IH]; simpl; intros H; auto.
  rewrite (H kv) by now left. apply IH. intros x Hx. apply H. now right.
Qed.

Lemma merge_dict_self V (d : Dict.t V) : merge_dict d d = d.
Proof.
  apply merge_dict_self_gen. intros [k v] H. simpl. now apply dict_in_mem with v.
Qed.

Lemma merge_dict_mono V (other self : Dict.t V) k :
  Dict.mem k self = true -> Dict.mem k (merge_dict self other) = true.
Proof. intros H. now apply merge_dict_keeps. Qed.

Lemma merge_dict_brings V (other self : Dict.t V) kv :
  In kv other -> Dict.mem (fst kv) (merge_dict self other) = true.
Proof.
  unfold merge_dict. revert self.
  induction other as [|[k v] r IH]; simpl; intros self H; [tauto|].
  destruct H as [<-|H]; [|now apply IH].
  simpl. apply (@merge_dict_mono V r).
  destruct (Dict.mem k self) eqn:E; auto. apply dict_mem_set.
Qed.

Lemma fold_add_edge_self_gen other es :
  (forall e, In e other -> edge_in e es = true) ->
  fold_left (fun acc e => add_edge_list e acc) other es = es.
Proof.
  induction other as [|e r IH]; simpl; intros H; auto.
  rewrite add_edge_list_present by (apply H; now left).
  apply IH. intros x Hx. apply H. now right.
Qed.

Lemma add_edge_list_mono e es x :
  edge_in x es = true -> edge_in x (add_edge_list e es) = true.
Proof.
  intros H. destruct (add_edge_list_prefix e es) as [s [-> _]].
  rewrite edge_in_app, H. reflexivity.
Qed.

Lemma fold_add_edge_mono other es x :
  edge_in x es = true ->
  edge_in x (fold_left (fun acc e => add_edge_list e acc) other es) = true.
Proof.
  intros H. destruct (fold_add_edge_prefix other es) as [s [-> _]].
  rewrite edge_in_app, H. reflexivity.
Qed.

Lemma add_edge_list_brings e es : edge_in e (add_edge_list e es) = true.
Proof.
  unfold add_edge_list. destruct (edge_in e es) eqn:E; auto.
  rewrite edge_in_app. simpl. rewrite LineageEdge_eqb_refl.
  now rewrite orb_true_r.
Qed.

Lemma fold_add_edge_brings other es x :
  In x other ->
  edge_in x (fold_left (fun acc e => add_edge_list e acc) other es) = true.
Proof.
  revert es. induction other as [|e r IH]; simpl; intros es H; [tauto|].
  destruct H as [<-|H]; [|now apply IH].
  apply fold_add_edge_mono. apply add_edge_list_brings.
Qed.

Lemma merge_idem g : merge g g = g.
Proof.
  unfold merge. rewrite !merge_dict_self.
  rewrite fold_add_edge_self_gen; [now destruct g|].
  intros e H. now apply edge_in_self.
Qed.

Lemma merge_twice g h : merge (merge g h) h = merge g h.
Proof.
  unfold merge at 1.
  rewrite !merge_dict_self_gen, fold_add_edge_self_gen; auto.
  - intros e H. simpl. now apply fold_add_edge_brings.
  - intros kv H. simpl. now apply merge_dict_brings.
  - intros kv H. simpl. now apply merge_dict_brings.
Qed.

Lemma merge_dict_live_done V (d : Dict.t V) fuel i :
  i <= List.length d < i + fuel -> merge_dict_live fuel i d = Done d.
Proof.
  revert i. induction fuel as [|f IH]; intros i H; simpl.
  - lia.
  - destruct (nth_error d i) as [[k v]|] eqn:E; auto.
    rewrite (@dict_in_mem V k v d) by (eapply nth_error_In; eauto).
    apply IH. assert (i < List.length d) by (apply nth_error_Some; congruence). lia.
Qed.

Lemma merge_edges_live_done es fuel i :
  i <= List.length es < i + fuel -> merge_edges_live fuel i es = Done es.
Proof.
  revert i. induction fuel as [|f IH]; intros i H; simpl.
  - lia.
  - destruct (nth_error es i) as [e|] eqn:E; auto.
    rewrite add_edge_list_present by (apply edge_in_self; eapply nth_error_In; eauto).
    apply IH. assert (i < List.length es) by (apply nth_error_Some; congruence). lia.
Qed.

(** C10. [merge] is idempotent: merging a graph into itself leaves tables,
    columns and edges as they were, both for [merge g g] on two equal graphs
    and for [g.merge(g)] on one shared object (whose loops then read the
    containers they write to); and once a graph [h] has been merged in,
    merging [h] again (in particular a second extraction of the same
    statements) changes nothing. *)
Theorem merge_idempotent (g : LineageGraph) :
  merge g g = g
  /\ merge_self g = Done g
  /\ (forall h, merge (merge g h) h = merge g h)
  /\ (forall statements source_file include_columns,
         let h := extract_lineage statements source_file include_columns in
         let h' := extract_lineage statements source_file include_columns in
         merge (merge g h) h' = merge g h).
Proof.
  repeat split.
  - apply merge_idem.
  - unfold merge_self.
    rewrite !merge_dict_live_done, merge_edges_live_done by (simpl; lia).
    now destruct g.
  - intros h. apply merge_twice.
  - intros. apply merge_twice.
Qed.

(** ** The resolver isolates failures *)



Lemma merge_holds_self g h : holds_all (merge g h) g.
Proof.
  repeat split; simpl.
  - intros k H. apply dict_mem_keys. apply merge_dict_mono. now apply dict_mem_keys.
  - intros k H. apply dict_mem_keys. apply merge_dict_mono. now apply dict_mem_keys.
  - intros e H. apply fold_add_edge_mono. now apply edge_in_self.
Qed.

Lemma merge_holds_other g h : holds_all (merge g h) h.
Proof.
  repeat split; simpl.
  - intros k H. apply in_map_iff in H. destruct H as [kv [<- H]].
    apply dict_mem_keys. now apply merge_dict_brings.
  - intros k H. apply in_map_iff in H. destruct H as [kv [<- H]].
    apply dict_mem_keys. now apply merge_dict_brings.
  - intros e H. now apply fold_add_edge_brings.
Qed.

Section ResolverLoop.

Variable A : Type.
Variable include_columns : bool.
Variable name_of : A -> string.
Variable parsed_of : A -> result (list exp.Expression).




End ResolverLoop.



(** ** Unqualified columns in statements with several sources *)

Lemma resolve_source_table_unqualified alias_map source_tables :
  1 < List.length source_tables ->
  resolve_source_table alias_map source_tables "" = None.
Proof.
  intros H. unfold resolve_source_table. simpl.
  destruct (Nat.eqb_spec (List.length source_tables) 1); [lia | reflexivity].
Qed.

Lemma add_col_edge_brings g e : edge_in e (edges (add_col_edge g e)) = true.
Proof. unfold add_col_edge. simpl. apply add_edge_list_brings. Qed.

Lemma register_endpoint_edges s g : edges (register_endpoint s g) = edges g.
Proof.
  unfold register_endpoint. destruct (Str.rsplit_dot1 s) as [|p0 [|p1 [|]]]; auto.
  unfold add_column. destruct (Dict.mem _ _); reflexivity.
Qed.

Lemma add_col_edge_mono g e x :
  edge_in x (edges g) = true -> edge_in x (edges (add_col_edge g e)) = true.
Proof.
  intros H. unfold add_col_edge. simpl. apply add_edge_list_mono.
  now rewrite !register_endpoint_edges.
Qed.

Lemma fold_add_col_edge_mono es g x :
  edge_in x (edges g) = true -> edge_in x (edges (fold_left add_col_edge es g)) = true.
Proof.
  revert g. induction es as [|e r IH]; simpl; intros g H; auto.
  apply IH. now apply add_col_edge_mono.
Qed.

Lemma fold_add_col_edge_brings es g x :
  In x es -> edge_in x (edges (fold_left add_col_edge es g)) = true.
Proof.
  revert g. induction es as [|e r IH]; simpl; intros g H; [tauto|].
  destruct H as [<-|H]; [|now apply IH].
  apply fold_add_col_edge_mono. apply add_col_edge_brings.
Qed.

Lemma unqualified_edge_extracted statement target source_tables source_file
      select item n inner ref :
  1 < List.length source_tables ->
  main_select statement = Some select ->
  In item (exp.expressions select) ->
  item_target item = (Some n, inner) ->
  n <> "*" ->
  In ref (col_refs inner) ->
  exp.table (exp.attrs_of ref) = "" ->
  exp.name (exp.attrs_of ref) <> "*" ->
  In (mkEdge (exp.name (exp.attrs_of ref)) (table_qualified_name target ++ "." ++ n)
             COLUMN_TO_COLUMN (Some (exp.sql (exp.attrs_of item))) source_file)
     (_extract_column_lineage statement (Some target) source_tables source_file).
Proof.
  intros L S I T N R Q NS.
  unfold _extract_column_lineage. rewrite S.
  apply in_flat_map. exists item. split; [exact I|].
  unfold item_edges. rewrite T.
  destruct (String.eqb_spec n "*"); [contradiction|].
  apply in_flat_map. exists ref. split; [exact R|].
  unfold col_ref_edges.
  destruct (String.eqb_spec (exp.name (exp.attrs_of ref)) "*"); [contradiction|].
  rewrite Q, resolve_source_table_unqualified by exact L.
  simpl. left. reflexivity.
Qed.

(** C7, as the code has it.  In a statement with more than one distinct
    source table, a column reference without qualifier inside a projected
    item (the item has an output name other than the star, the reference is
    not a star) is not dropped: [_extract_column_lineage] produces a
    [ColumnToColumn] edge for it whose source id is the bare column name, with
    no owning table, and whose target is the output column of the target
    table; [_process_statement] stores that edge in the graph. *)
Theorem unqualified_column_edge_is_bare
        (statement : exp.Expression) (graph : LineageGraph) (target : Table)
        (source_file : option string) (select item ref : exp.Expression)
        (n : string) (inner : option exp.Expression) :
  _get_target_table statement = Some target ->
  1 < List.length (_get_source_tables statement) ->
  main_select statement = Some select ->
  In item (exp.expressions select) ->
  item_target item = (Some n, inner) ->
  n <> "*" ->
  In ref (col_refs inner) ->
  exp.table (exp.attrs_of ref) = "" ->
  exp.name (exp.attrs_of ref) <> "*" ->
  let edge := mkEdge (exp.name (exp.attrs_of ref))
                     (table_qualified_name target ++ "." ++ n)
                     COLUMN_TO_COLUMN (Some (exp.sql (exp.attrs_of item))) source_file in
  In edge (_extract_column_lineage statement (Some target)
                                   (_get_source_tables statement) source_file)
  /\ edge_in edge (edges (_process_statement statement graph source_file true)) = true.
Proof.
  intros T L S I IT N R Q NS edge. split.
  - now apply unqualified_edge_extracted with select inner.
  - unfold _process_statement. rewrite T.
    apply fold_add_col_edge_brings.
    apply (@unqualified_edge_extracted statement (with_source_file source_file target)
             (map (tag_source (_get_cte_names statement) source_file)
                  (_get_source_tables statement))
             source_file select item n inner ref); auto.
    now rewrite length_map.
Qed.

Lemma unqualified_column_edge_is_bare_witness :
  let edge := mkEdge "id" "t.id" COLUMN_TO_COLUMN (Some "id") None in
  In edge (_extract_column_lineage Samples.ctas_join (Some (Table_named "t"))
                                   (_get_source_tables Samples.ctas_join) None)
  /\ edge_in edge (edges (_process_statement Samples.ctas_join empty_graph None true)) = true.
Proof.
  apply (@unqualified_column_edge_is_bare Samples.ctas_join empty_graph (Table_named "t")
           None
           (Samples.select [Samples.col "" "id"]
              [("from", Samples.from (Samples.tbl "a"));
               ("joins", Samples.join (Samples.tbl "b")
                           (Samples.eq (Samples.col "a" "k") (Samples.col "b" "k")))])
           (Samples.col "" "id") (Samples.col "" "id") "id" (Some (Samples.col "" "id"))).
  - reflexivity.
  - vm_compute. lia.
  - reflexivity.
  - simpl. left. reflexivity.
  - reflexivity.
  - discriminate.
  - simpl. left. reflexivity.
  - reflexivity.
  - discriminate.
Defined.

(** C7 as stated fails: in [CREATE TABLE t AS SELECT id FROM a JOIN b ON
    a.k = b.k] there are two source tables, the projected [id] carries no
    qualifier, and yet the extracted lineage holds a [ColumnToColumn] edge
    for it, from the bare [id] to [t.id]. *)
Lemma unqualified_column_not_dropped :
  List.length (_get_source_tables Samples.ctas_join) = 2
  /\ exp.table (exp.attrs_of (Samples.col "" "id")) = ""
  /\ _extract_column_lineage Samples.ctas_join (Some (Table_named "t"))
                             (_get_source_tables Samples.ctas_join) None
     = [mkEdge "id" "t.id" COLUMN_TO_COLUMN (Some "id") None]
  /\ filter (fun e => EdgeType_eqb (e_edge_type e) COLUMN_TO_COLUMN)
            (edges (extract_lineage [Samples.ctas_join] None true))
     = [mkEdge "id" "t.id" COLUMN_TO_COLUMN (Some "id") None].
Proof. repeat split. Qed.

(** ** Source extraction on MERGE and on schema-wrapped targets *)

(** C2, the code at the two statements the claim singles out.  In [MERGE
    INTO target USING source ...] the table [source] is a reference of the
    statement, sits under [using], is not the target, and yet
    [_get_source_tables] returns no source at all (every table whose parent
    is the [Merge] node is skipped), so no edge reaches [target].  In
    [CREATE TABLE t (a INT) AS SELECT a FROM s] the target [t] sits under a
    [Schema] node, [_get_target_table] unwraps it, but [_get_source_tables]
    lists [t] among the sources, and the statement yields the edge [t -> t]. *)
Theorem source_extraction_merge_and_schema :
  (_get_target_table Samples.merge_using = Some (Table_named "target")
   /\ exp.arg "using" (exp.args_of Samples.merge_using) = Some (Samples.tbl "source")
   /\ In (Samples.tbl "source") (exp.find_all exp.Table Samples.merge_using)
   /\ _get_source_tables Samples.merge_using = []
   /\ edges (extract_lineage [Samples.merge_using] None false) = [])
  /\ (_get_target_table Samples.ctas_schema = Some (Table_named "t")
      /\ _get_source_tables Samples.ctas_schema = [Table_named "t"; Table_named "s"]
      /\ edges (extract_lineage [Samples.ctas_schema] None false)
         = [mkEdge "t" "t" TABLE_TO_TABLE None None;
            mkEdge "s" "t" TABLE_TO_TABLE None None]).
Proof.
  split.
  - repeat split. simpl. tauto.
  - repeat split.
Qed.

(** ** Identifiers of the serialized graph *)

(** C8, the code at two statements.  For [CREATE TABLE Target AS SELECT id
    FROM Source] the serialized node ids are [target] and [source], while the
    only link runs from [Source] to [Target]: its endpoints are not
    lowercased and match no node id.  For [CREATE TABLE schema_a.target AS
    SELECT id FROM schema_b.source] with column lineage, the column node ids
    are [source.id] and [target.id] (schema dropped, owning table ids [source]
    and [target], which are no table node ids), while the column link runs
    from [schema_b.source.id] to [schema_a.target.id]. *)
Theorem serialized_identifiers_diverge :
  (let d3 := to_d3_json (extract_lineage [Samples.ctas_mixed_case] None false) in
   map (jfield "id") (nodes d3) = [Some "target"; Some "source"]
   /\ map (jfield "source") (links d3) = [Some "Source"]
   /\ map (jfield "target") (links d3) = [Some "Target"]
   /\ ~ In (Some "Source") (map (jfield "id") (nodes d3))
   /\ Str.lower "Source" <> "Source")
  /\ (let d3 := to_d3_json (extract_lineage [Samples.ctas_qualified] None true) in
      map (jfield "id") (nodes d3)
      = [Some "schema_a.target"; Some "schema_b.source"; Some "source.id"; Some "target.id"]
      /\ map (jfield "table_id") (nodes d3) = [None; None; Some "source"; Some "target"]
      /\ map (jfield "source") (links d3)
         = [Some "schema_b.source"; Some "schema_b.source.id"]
      /\ map (jfield "target") (links d3)
         = [Some "schema_a.target"; Some "schema_a.target.id"]
      /\ ~ In (Some "schema_b.source.id") (map (jfield "id") (nodes d3))).
Proof.
  split.
  - cbv zeta. repeat split.
    + vm_compute. intros [H|[H|[]]]; discriminate.
    + discriminate.
  - cbv zeta. repeat split.
    vm_compute. intros [H|[H|[H|[H|[]]]]]; discriminate.
Qed.

(** ** The execution-order engine: the two loops that build [adj] and
    [in_degree] *)

Lemma str_in_In x l : str_in x l = true <-> In x l.
Proof.
  unfold str_in. rewrite existsb_exists. split.
  - intros [y [H E]]. apply String.eqb_eq in E. now subst.
  - intros H. exists x. split; auto. apply String.eqb_refl.
Qed.

Lemma str_in_not_In x l : str_in x l = false <-> ~ In x l.
Proof.
  rewrite <- str_in_In. destruct (str_in x l); split; congruence.
Qed.

Lemma mem_str_in V (k : string) (d : Dict.t V) : Dict.mem k d = str_in k (Dict.keys d).
Proof.
  destruct (str_in k (Dict.keys d)) eqn:E.
  - apply dict_mem_keys. now apply str_in_In.
  - apply dict_mem_false_keys. now apply str_in_not_In.
Qed.

Lemma dict_get_or_set_eq V (k : string) (v default : V) d :
  dict_get_or k (Dict.set k v d) default = v.
Proof. unfold dict_get_or. now rewrite dict_get_set_eq. Qed.

Lemma dict_get_or_set_neq V (k k' : string) (v default : V) d :
  k <> k' -> dict_get_or k' (Dict.set k v d) default = dict_get_or k' d default.
Proof. intros N. unfold dict_get_or. now rewrite dict_get_set_neq. Qed.

Lemma dict_set_fresh V (k : string) (v : V) d :
  Dict.mem k d = false -> Dict.set k v d = (d ++ [(k, v)])%list.
Proof.
  unfold Dict.mem. induction d as [|[k' v'] r IH]; simpl; auto.
  destruct (String.eqb k k') eqn:E; [discriminate|].
  intros H. now rewrite IH.
Qed.

Lemma keys_const_map V (c : V) (l : list string) :
  Dict.keys (map (fun k => (k, c)) l) = l.
Proof.
  unfold Dict.keys. rewrite map_map. simpl. apply map_id.
Qed.

Lemma get_or_const_map V (c : V) (l : list string) k :
  dict_get_or k (map (fun k => (k, c)) l) c = c.
Proof.
  unfold dict_get_or. induction l as [|x r IH]; simpl; auto.
  destruct (String.eqb k x); auto.
Qed.

Lemma init_fold (l done : list string) :
  NoDup (done ++ l) ->
  fold_left (fun (st : Dict.t (list string) * Dict.t Z) table_id =>
               (Dict.setdefault table_id [] (fst st), Dict.setdefault table_id 0%Z (snd st)))
            l (map (fun k => (k, [])) done, map (fun k => (k, 0%Z)) done)
  = (map (fun k => (k, [])) (done ++ l), map (fun k => (k, 0%Z)) (done ++ l)).
Proof.
  revert done. induction l as [|k r IH]; intros done H; simpl.
  - now rewrite app_nil_r.
  - assert (F : ~ In k done).
    { apply NoDup_remove_2 in H. intros C. apply H. apply in_or_app. now left. }
    unfold Dict.setdefault.
    rewrite !mem_str_in, !keys_const_map.
    apply str_in_not_In in F. rewrite F.
    rewrite !dict_set_fresh by (now rewrite mem_str_in, keys_const_map).
    replace (done ++ k :: r)%list with ((done ++ [k]) ++ r)%list
      by (now rewrite <- app_assoc).
    rewrite <- IH by (now rewrite <- app_assoc).
    now rewrite !map_app.
Qed.

Lemma init_tables_spec g :
  Dict.wf (tables g) ->
  init_tables g = (map (fun k => (k, [])) (Dict.keys (tables g)),
                   map (fun k => (k, 0%Z)) (Dict.keys (tables g))).
Proof.
  intros W. unfold init_tables. apply (init_fold (Dict.keys (tables g)) []). exact W.
Qed.

Lemma preds_in_snoc K done e v :
  preds_in K (done ++ [e]) v
  = (preds_in K done v ++ (if counted K v e then [Str.lower (e_source e)] else []))%list.
Proof.
  unfold preds_in. rewrite filter_app, map_app. simpl.
  now destruct (counted K v e).
Qed.

Lemma set_add_In x s y : In y (set_add x s) <-> In y s \/ y = x.
Proof.
  unfold set_add. destruct (existsb (String.eqb x) s) eqn:E.
  - split; [tauto|]. intros [H | ->]; auto. now apply str_in_In.
  - rewrite in_app_iff. simpl. intuition congruence.
Qed.

Lemma set_add_NoDup x s : NoDup s -> NoDup (set_add x s).
Proof.
  intros H. unfold set_add. destruct (existsb (String.eqb x) s) eqn:E; auto.
  apply NoDup_rev in H. rewrite <- (rev_involutive (_ ++ _)).
  apply NoDup_rev. rewrite rev_app_distr. simpl. constructor; auto.
  rewrite <- in_rev. now apply str_in_not_In.
Qed.

Lemma table_to_table_value t :
  String.eqb (EdgeType_value t) "table_to_table" = EdgeType_eqb t TABLE_TO_TABLE.
Proof. now destruct t. Qed.

Lemma build_skip K done st e :
  (forall v, counted K v e = false) ->
  build_inv K done st -> build_inv K (done ++ [e]) st.
Proof.
  intros C [KA [KD [DG [ND AD]]]].
  assert (P : forall v, preds_in K (done ++ [e]) v = preds_in K done v).
  { intros v. now rewrite preds_in_snoc, C, app_nil_r. }
  split; [|split; [|split; [|split]]]; auto.
  - intros v. rewrite P. apply DG.
  - intros u v. rewrite P. apply AD.
Qed.

Lemma build_step K done st e :
  build_inv K done st -> build_inv K (done ++ [e]) (add_dependency st e).
Proof.
  intros B. unfold add_dependency.
  rewrite table_to_table_value, !mem_str_in.
  destruct B as [KA [KD [DG [ND AD]]]]. rewrite KA, KD.
  assert (B : build_inv K done st) by (repeat split; auto; apply AD).
  destruct (EdgeType_eqb (e_edge_type e) TABLE_TO_TABLE) eqn:T;
    [|apply build_skip; auto; intros v; unfold counted; now rewrite T].
  destruct (str_in (Str.lower (e_source e)) K) eqn:S1;
    [|apply build_skip; auto; intros v; unfold counted; now rewrite T, S1].
  destruct (str_in (Str.lower (e_target e)) K) eqn:S2;
    [|apply build_skip; auto; intros v; unfold counted; now rewrite T, S1, S2].
  simpl.
  assert (P : forall v, preds_in K (done ++ [e]) v
                        = (preds_in K done v
                           ++ (if String.eqb (Str.lower (e_target e)) v
                               then [Str.lower (e_source e)] else []))%list).
  { intros v. rewrite preds_in_snoc. unfold counted. now rewrite T, S1, S2. }
  set (src := Str.lower (e_source e)) in *.
  set (tgt := Str.lower (e_target e)) in *.
  split; [|split; [|split; [|split]]]; simpl.
  - rewrite dict_keys_set_present; auto. now rewrite mem_str_in, KA.
  - rewrite dict_keys_set_present; auto. now rewrite mem_str_in, KD.
  - intros v. rewrite P. unfold deg in *.
    destruct (String.eqb_spec tgt v) as [<-|N].
    + rewrite dict_get_or_set_eq, DG, length_app. simpl. lia.
    + rewrite dict_get_or_set_neq by exact N. rewrite DG, app_nil_r. reflexivity.
  - intros u. destruct (string_dec src u) as [<-|N].
    + rewrite dict_get_or_set_eq. apply set_add_NoDup, ND.
    + rewrite dict_get_or_set_neq by exact N. apply ND.
  - intros u v. rewrite P, in_app_iff.
    destruct (string_dec src u) as [<-|N].
    + rewrite dict_get_or_set_eq, set_add_In, AD.
      destruct (String.eqb_spec tgt v) as [<-|N']; simpl; intuition congruence.
    + rewrite dict_get_or_set_neq by exact N. rewrite AD.
      destruct (String.eqb tgt v); simpl; intuition congruence.
Qed.

Lemma build_fold K todo done st :
  build_inv K done st -> build_inv K (done ++ todo) (fold_left add_dependency todo st).
Proof.
  revert done st. induction todo as [|e r IH]; simpl; intros done st H.
  - now rewrite app_nil_r.
  - replace (done ++ e :: r)%list with ((done ++ [e]) ++ r)%list
      by (now rewrite <- app_assoc).
    apply IH. now apply build_step.
Qed.

Lemma build_spec g :
  Dict.wf (tables g) -> build_inv (Dict.keys (tables g)) (edges g) (build g).
Proof.
  intros W. unfold build. rewrite init_tables_spec by exact W.
  apply (@build_fold (Dict.keys (tables g)) (edges g) []).
  repeat split; simpl.
  - apply keys_const_map.
  - apply keys_const_map.
  - intros v. unfold deg. now rewrite get_or_const_map.
  - intros u. rewrite get_or_const_map. constructor.
  - rewrite get_or_const_map. intros [].
  - unfold preds_in. simpl. intros [].
Qed.

(** ** The [for neighbor] loop *)

Lemma deg_set_eq k v d : deg (Dict.set k v d) k = v.
Proof. apply dict_get_or_set_eq. Qed.

Lemma deg_set_neq k k' v d : k <> k' -> deg (Dict.set k v d) k' = deg d k'.
Proof. apply dict_get_or_set_neq. Qed.

Lemma dict_get_present V (k : string) (d : Dict.t V) :
  In k (Dict.keys d) -> exists v, Dict.get k d = Some v.
Proof.
  intros H. apply dict_mem_keys in H. unfold Dict.mem in H.
  destruct (Dict.get k d) as [v|]; [now exists v | discriminate].
Qed.

Lemma relax_spec neighbors :
  forall in_degree queue,
    NoDup neighbors ->
    incl neighbors (Dict.keys in_degree) ->
    exists in_degree',
      relax neighbors in_degree queue
      = Done (in_degree',
              (queue ++ filter (fun x => (deg in_degree x =? 1)%Z) neighbors)%list)
      /\ Dict.keys in_degree' = Dict.keys in_degree
      /\ forall x, deg in_degree' x
                   = (deg in_degree x - (if str_in x neighbors then 1 else 0))%Z.
Proof.
  induction neighbors as [|a rest IH]; intros in_degree queue ND IN.
  - exists in_degree. simpl. rewrite app_nil_r. repeat split. intros x. lia.
  - inversion ND as [|? ? NA ND']; subst.
    destruct (@dict_get_present Z a in_degree) as [d G]; [apply IN; now left|].
    assert (D : deg in_degree a = d) by (unfold deg, dict_get_or; now rewrite G).
    assert (KS : Dict.keys (Dict.set a (d - 1)%Z in_degree) = Dict.keys in_degree).
    { apply dict_keys_set_present. unfold Dict.mem. now rewrite G. }
    destruct (IH (Dict.set a (d - 1)%Z in_degree)
                 (if (d - 1 =? 0)%Z then (queue ++ [a])%list else queue) ND')
      as [in_degree' [R [KE DE]]].
    { rewrite KS. intros x Hx. apply IN. now right. }
    exists in_degree'. split; [|split].
    + simpl. rewrite G, R. f_equal. f_equal.
      rewrite (@filter_ext_in _ (fun x => (deg (Dict.set a (d - 1)%Z in_degree) x =? 1)%Z)
                 (fun x => (deg in_degree x =? 1)%Z)).
      * rewrite D.
        destruct (Z.eqb_spec (d - 1) 0), (Z.eqb_spec d 1); try lia.
        -- now rewrite <- app_assoc.
        -- reflexivity.
      * intros x Hx. rewrite deg_set_neq; auto. intros ->. contradiction.
    + now rewrite KE.
    + intros x. rewrite DE. simpl.
      destruct (String.eqb_spec x a) as [->|N].
      * rewrite deg_set_eq, D. apply str_in_not_In in NA. rewrite NA. simpl. lia.
      * rewrite deg_set_neq by congruence. simpl. reflexivity.
Qed.

(** ** The [while queue] loop *)

Lemma str_in_app x l1 l2 : str_in x (l1 ++ l2) = str_in x l1 || str_in x l2.
Proof. unfold str_in. apply existsb_app. Qed.

Lemma bool_eq_iff (a b : bool) : (a = true <-> b = true) -> a = b.
Proof. destruct a, b; intuition congruence. Qed.

Lemma filter_empty_all A (f : A -> bool) l :
  filter f l = [] -> forall x, In x l -> f x = false.
Proof.
  intros E x H. destruct (f x) eqn:F; auto.
  assert (C : In x (filter f l)) by (apply filter_In; auto).
  rewrite E in C. destruct C.
Qed.

Lemma filter_drop_placed (l order : list string) n :
  NoDup l -> ~ In n order ->
  List.length (filter (fun p => negb (str_in p order)) l)
  = List.length (filter (fun p => negb (str_in p (order ++ [n]))) l)
    + (if str_in n l then 1 else 0).
Proof.
  intros ND NO. apply str_in_not_In in NO.
  induction l as [|a r IH]; simpl; [reflexivity|].
  inversion ND as [|? ? NA ND']; subst. specialize (IH ND').
  rewrite str_in_app. simpl. rewrite orb_false_r.
  destruct (String.eqb_spec n a) as [->|N].
  - rewrite String.eqb_refl, NO, orb_true_r. simpl.
    apply str_in_not_In in NA. rewrite NA in IH. lia.
  - assert (E : String.eqb a n = false) by (apply String.eqb_neq; congruence).
    rewrite E, orb_false_r. simpl.
    destruct (str_in a order); simpl; lia.
Qed.

Section KahnLoop.

Variable set_iter : list string -> list string.
Hypothesis set_iter_perm : forall s, Permutation (set_iter s) s.

Variable K : list string.
Variable adj : Dict.t (list string).
Hypothesis adj_nodup : forall u, NoDup (dict_get_or u adj []).
Hypothesis adj_incl : forall u, incl (dict_get_or u adj []) K.

Lemma neighbors_nodup node : NoDup (set_iter (dict_get_or node adj [])).
Proof.
  apply Permutation_NoDup with (dict_get_or node adj []); auto.
  apply Permutation_sym, set_iter_perm.
Qed.

Lemma neighbors_in node x :
  In x (set_iter (dict_get_or node adj [])) <-> In x (dict_get_or node adj []).
Proof.
  split; apply Permutation_in; auto. apply Permutation_sym, set_iter_perm.
Qed.

Lemma queue_inv_step in_degree in_degree' node queue order :
  queue_inv K in_degree (node :: queue) order ->
  Dict.keys in_degree' = Dict.keys in_degree ->
  (forall x, deg in_degree' x
             = (deg in_degree x
                - (if str_in x (set_iter (dict_get_or node adj [])) then 1 else 0))%Z) ->
  queue_inv K in_degree'
            (queue ++ filter (fun x => (deg in_degree x =? 1)%Z)
                             (set_iter (dict_get_or node adj [])))
            (order ++ [node]).
Proof.
  intros [KD [ND [IN LE]]] KE DE.
  set (fresh := filter (fun x => (deg in_degree x =? 1)%Z)
                       (set_iter (dict_get_or node adj []))).
  assert (R : ((order ++ [node]) ++ queue ++ fresh = (order ++ node :: queue) ++ fresh)%list).
  { rewrite <- !app_assoc. reflexivity. }
  assert (F : forall x, In x fresh -> deg in_degree x = 1%Z
                                      /\ In x (set_iter (dict_get_or node adj []))).
  { intros x Hx. apply filter_In in Hx. destruct Hx as [Hx E].
    apply Z.eqb_eq in E. auto. }
  split; [|split; [|split]].
  - congruence.
  - rewrite R. apply NoDup_app; auto.
    + apply NoDup_filter, neighbors_nodup.
    + intros x Hx C. apply F in C. apply LE in Hx. lia.
  - rewrite R. apply incl_app; auto.
    intros x Hx. apply F in Hx. destruct Hx as [_ Hx].
    apply neighbors_in in Hx. now apply adj_incl in Hx.
  - rewrite R. intros x Hx. rewrite DE. apply in_app_or in Hx. destruct Hx as [Hx|Hx].
    + apply LE in Hx. destruct (str_in x _); lia.
    + apply F in Hx. destruct Hx as [D Hx]. apply str_in_In in Hx. rewrite Hx. lia.
Qed.

Lemma kahn_runs fuel :
  forall in_degree queue order,
    queue_inv K in_degree queue order ->
    List.length K <= List.length order + fuel ->
    exists final in_degree_f,
      kahn set_iter fuel adj in_degree queue order = Done final
      /\ queue_inv K in_degree_f [] final.
Proof.
  induction fuel as [|fuel IH]; intros in_degree queue order J L.
  - destruct queue as [|node queue].
    + exists order, in_degree. split; auto.
    + exfalso. destruct J as [_ [ND [IN _]]].
      apply NoDup_incl_length in IN; auto.
      rewrite length_app in IN. simpl in IN. lia.
  - destruct queue as [|node queue].
    + exists order, in_degree. split; auto.
    + destruct (@relax_spec (set_iter (dict_get_or node adj [])) in_degree queue)
        as [in_degree' [R [KE DE]]].
      * apply neighbors_nodup.
      * intros x Hx. apply neighbors_in in Hx. apply adj_incl in Hx.
        destruct J as [KD _]. now rewrite KD.
      * simpl. rewrite R. apply IH.
        -- eapply queue_inv_step; eauto.
        -- rewrite length_app. simpl. lia.
Qed.

(** With duplicate-free predecessor lists [P] that mirror [adj]. *)
Variable P : string -> list string.
Hypothesis P_nodup : forall x, NoDup (P x).
Hypothesis P_adj : forall u v, In v (dict_get_or u adj []) <-> In u (P v).

Lemma kahn_inv_step in_degree in_degree' node queue order :
  queue_inv K in_degree (node :: queue) order ->
  kahn_inv K P in_degree (node :: queue) order ->
  (forall x, deg in_degree' x
             = (deg in_degree x
                - (if str_in x (set_iter (dict_get_or node adj [])) then 1 else 0))%Z) ->
  kahn_inv K P in_degree'
           (queue ++ filter (fun x => (deg in_degree x =? 1)%Z)
                            (set_iter (dict_get_or node adj [])))
           (order ++ [node]).
Proof.
  intros [KD [ND [IN LE]]] [DG [ZQ BF]] DE.
  assert (NO : ~ In node order).
  { apply NoDup_remove_2 in ND. intros C. apply ND. apply in_or_app. now left. }
  assert (SW : forall x, str_in x (set_iter (dict_get_or node adj [])) = str_in node (P x)).
  { intros x. apply bool_eq_iff. rewrite !str_in_In, neighbors_in. apply P_adj. }
  split; [|split].
  - intros x. rewrite DE, DG, SW.
    pose proof (@filter_drop_placed (P x) order node (P_nodup x) NO) as H.
    destruct (str_in node (P x)); lia.
  - intros x HK Z0. rewrite DE in Z0.
    assert (R : forall fresh,
               ((order ++ [node]) ++ queue ++ fresh = (order ++ node :: queue) ++ fresh)%list).
    { intros. rewrite <- !app_assoc. reflexivity. }
    rewrite R. apply in_or_app.
    destruct (str_in x (set_iter (dict_get_or node adj []))) eqn:S.
    + right. apply filter_In. split; [now apply str_in_In|]. apply Z.eqb_eq. lia.
    + left. apply ZQ; auto. lia.
  - intros l1 x l2 E. destruct l2 as [|y l2'] using rev_ind.
    + apply app_inj_tail in E. destruct E as [-> ->].
      assert (Z0 : deg in_degree x = 0%Z).
      { assert (H1 : (deg in_degree x <= 0)%Z) by (apply LE; apply in_elt).
        rewrite DG in *. lia. }
      rewrite DG in Z0.
      assert (FE : filter (fun p => negb (str_in p l1)) (P x) = []).
      { apply length_zero_iff_nil. lia. }
      intros p Hp. pose proof (filter_empty_all _ _ FE p Hp) as N.
      apply negb_false_iff in N. now apply str_in_In.
    + clear IHl2'. rewrite app_comm_cons, app_assoc in E.
      apply app_inj_tail in E. destruct E as [E _]. now apply BF with l2'.
Qed.

Lemma kahn_keeps fuel :
  forall in_degree queue order final,
    queue_inv K in_degree queue order ->
    kahn_inv K P in_degree queue order ->
    kahn set_iter fuel adj in_degree queue order = Done final ->
    exists in_degree_f, kahn_inv K P in_degree_f [] final.
Proof.
  induction fuel as [|fuel IH]; intros in_degree queue order final J I R.
  - destruct queue as [|node queue]; simpl in R; [|discriminate].
    injection R as <-. now exists in_degree.
  - destruct queue as [|node queue]; simpl in R.
    + injection R as <-. now exists in_degree.
    + destruct (@relax_spec (set_iter (dict_get_or node adj [])) in_degree queue)
        as [in_degree' [RS [KE DE]]].
      * apply neighbors_nodup.
      * intros x Hx. apply neighbors_in in Hx. apply adj_incl in Hx.
        destruct J as [KD _]. now rewrite KD.
      * rewrite RS in R. apply IH in R; auto.
        -- eapply queue_inv_step; eauto.
        -- eapply kahn_inv_step; eauto.
Qed.

End KahnLoop.

(** ** The execution order is a permutation of the table ids *)

Lemma dict_get_in V (k : string) (v : V) d : Dict.get k d = Some v -> In (k, v) d.
Proof.
  induction d as [|[k' v'] r IH]; simpl; [discriminate|].
  destruct (String.eqb_spec k k') as [->|N].
  - intros E. injection E as ->. now left.
  - intros E. right. now apply IH.
Qed.

Lemma dict_in_get V (k : string) (v : V) d :
  NoDup (Dict.keys d) -> In (k, v) d -> Dict.get k d = Some v.
Proof.
  induction d as [|[k' v'] r IH]; simpl; intros ND H; [tauto|].
  inversion ND as [|? ? NK ND']; subst.
  destruct H as [E|H].
  - injection E as -> ->. now rewrite String.eqb_refl.
  - destruct (String.eqb_spec k k') as [->|N]; [|now apply IH].
    exfalso. apply NK. change k' with (fst (k', v)). now apply in_map.
Qed.

Lemma keys_filter_nodup V (f : string * V -> bool) (d : Dict.t V) :
  NoDup (Dict.keys d) -> NoDup (map fst (filter f d)).
Proof.
  unfold Dict.keys. induction d as [|kv r IH]; simpl; intros ND; [constructor|].
  inversion ND as [|? ? NK ND']; subst.
  destruct (f kv); simpl; auto. constructor; auto.
  intros C. apply NK. apply in_map_iff in C. destruct C as [x [E Hx]].
  apply filter_In in Hx. rewrite <- E. apply in_map. tauto.
Qed.

Lemma initial_queue_inv K (in_degree : Dict.t Z) :
  NoDup K -> Dict.keys in_degree = K ->
  queue_inv K in_degree (map fst (filter (fun nd => (snd nd =? 0)%Z) in_degree)) [].
Proof.
  intros ND KD. split; [|split; [|split]]; simpl; auto.
  - apply keys_filter_nodup. now rewrite KD.
  - intros x Hx. apply in_map_iff in Hx. destruct Hx as [[k v] [<- Hx]].
    apply filter_In in Hx. rewrite <- KD. unfold Dict.keys.
    apply in_map. tauto.
  - intros x Hx. apply in_map_iff in Hx. destruct Hx as [[k v] [<- Hx]].
    apply filter_In in Hx. destruct Hx as [Hx Z0]. simpl in *.
    apply Z.eqb_eq in Z0. subst v.
    unfold deg, dict_get_or. rewrite (@dict_in_get Z k 0%Z in_degree); auto; try lia.
    now rewrite KD.
Qed.

Lemma placed_then_rest_perm (K final : list string) :
  NoDup K -> NoDup final -> incl final K ->
  Permutation (final ++ filter (fun t => negb (str_in t final)) K) K.
Proof.
  intros NK NF IN. apply NoDup_Permutation; auto.
  - apply NoDup_app; auto.
    + now apply NoDup_filter.
    + intros x Hx C. apply filter_In in C. destruct C as [_ C].
      apply negb_true_iff in C. apply str_in_not_In in C. contradiction.
  - intros x. rewrite in_app_iff, filter_In, negb_true_iff, str_in_not_In. split.
    + intros [H|[H _]]; auto.
    + intros H. destruct (in_dec string_dec x final); auto.
Qed.

Lemma build_adj_incl K done st u :
  build_inv K done st -> incl (dict_get_or u (fst st) []) K.
Proof.
  intros [_ [_ [_ [_ AD]]]] v Hv. apply AD in Hv.
  unfold preds_in in Hv. apply in_map_iff in Hv. destruct Hv as [e [_ He]].
  apply filter_In in He. destruct He as [_ C]. unfold counted in C.
  rewrite !andb_true_iff in C. destruct C as [[[_ _] T] E].
  apply String.eqb_eq in E. subst v. now apply str_in_In.
Qed.

(** C3. Whatever order Python iterates sets in, and whether or not the
    table-to-table edges form cycles or leave nodes unconnected,
    [get_execution_order] returns (no [KeyError], and the [while] loop ends
    within as many rounds as there are tables), and the list returned is a
    permutation of the table node ids of the graph: each id exactly once. *)
Theorem execution_order_total
        (set_iter : list string -> list string) (g : LineageGraph) :
  (forall s, Permutation (set_iter s) s) ->
  Dict.wf (tables g) ->
  exists order,
    get_execution_order set_iter g = Done order
    /\ Permutation order (Dict.keys (tables g))
    /\ NoDup order.
Proof.
  intros SP W. pose proof (@build_spec g W) as B.
  unfold get_execution_order.
  destruct (build g) as [adj in_degree] eqn:EB.
  destruct B as [KA [KD [DG [ND AD]]]]. simpl in *.
  assert (B : build_inv (Dict.keys (tables g)) (edges g) (adj, in_degree))
    by (repeat split; auto; apply AD).
  destruct (@kahn_runs set_iter SP (Dict.keys (tables g)) adj ND
              (fun u => @build_adj_incl _ _ _ u B)
              (List.length (Dict.keys (tables g))) in_degree
              (map fst (filter (fun nd => (snd nd =? 0)%Z) in_degree)) [])
    as [final [in_degree_f [R [_ [NF [IN _]]]]]].
  - now apply initial_queue_inv.
  - simpl. lia.
  - rewrite R. rewrite app_nil_r in NF, IN.
    exists (final ++ filter (fun t => negb (str_in t final)) (Dict.keys (tables g)))%list.
    assert (PM : Permutation
                   (final ++ filter (fun t => negb (str_in t final)) (Dict.keys (tables g)))
                   (Dict.keys (tables g)))
      by (now apply placed_then_rest_perm).
    repeat split; auto.
    apply Permutation_NoDup with (Dict.keys (tables g)); auto.
    now apply Permutation_sym.
Qed.

Lemma execution_order_total_witness :
  exists order,
    get_execution_order (fun s => rev s) Samples.cyclic_pipeline = Done order
    /\ Permutation order (Dict.keys (tables Samples.cyclic_pipeline))
    /\ NoDup order.
Proof.
  apply (@execution_order_total (fun s => rev s) Samples.cyclic_pipeline).
  - intros s. apply Permutation_sym, Permutation_rev.
  - unfold Dict.wf. vm_compute.
    repeat constructor; simpl; intuition discriminate.
Defined.

(** ** Soundness of the execution order *)

Lemma preds_tt_edge g u v : In u (preds g v) <-> tt_edge g u v.
Proof.
  unfold preds, preds_in, tt_edge, counted. rewrite in_map_iff. split.
  - intros [e [E H]]. apply filter_In in H. destruct H as [H C].
    rewrite !andb_true_iff in C. destruct C as [[[T S1] S2] EV].
    apply EdgeType_eqb_eq in T. apply String.eqb_eq in EV.
    apply str_in_In in S1, S2. exists e. subst. repeat split; auto.
  - intros [e [H [T [S [EV [KU KV]]]]]]. exists e. split; auto.
    apply filter_In. split; auto.
    rewrite !andb_true_iff. subst. repeat split.
    + now apply EdgeType_eqb_eq.
    + now apply str_in_In.
    + now apply str_in_In.
    + apply String.eqb_refl.
Qed.

Lemma preds_nodup K es v : NoDup (map edge_key es) -> NoDup (preds_in K es v).
Proof.
  unfold preds_in. induction es as [|e r IH]; simpl; intros ND; [constructor|].
  inversion ND as [|? ? NK ND']; subst.
  destruct (counted K v e) eqn:C; simpl; auto.
  constructor; auto.
  intros H. apply NK. apply in_map_iff in H. destruct H as [e' [E H]].
  apply filter_In in H. destruct H as [H C'].
  apply in_map_iff. exists e'. split; auto.
  unfold counted in C, C'. rewrite !andb_true_iff in C, C'.
  destruct C as [[[T _] _] EV]. destruct C' as [[[T' _] _] EV'].
  apply EdgeType_eqb_eq in T, T'. apply String.eqb_eq in EV, EV'.
  unfold edge_key. congruence.
Qed.

Lemma filter_none_placed (l : list string) :
  filter (fun p => negb (str_in p [])) l = l.
Proof.
  induction l as [|a r IH]; [reflexivity|].
  change (a :: filter (fun p => negb (str_in p [])) r = a :: r).
  now rewrite IH.
Qed.

Lemma initial_kahn_inv K P (in_degree : Dict.t Z) :
  Dict.keys in_degree = K ->
  (forall v, deg in_degree v = Z.of_nat (List.length (P v))) ->
  kahn_inv K P in_degree (map fst (filter (fun nd => (snd nd =? 0)%Z) in_degree)) [].
Proof.
  intros KD DG. split; [|split].
  - intros x. now rewrite filter_none_placed.
  - intros x HK Z0. simpl. rewrite <- KD in HK.
    destruct (@dict_get_present Z x in_degree HK) as [d G].
    assert (D : d = 0%Z) by (unfold deg, dict_get_or in Z0; now rewrite G in Z0).
    subst d. apply dict_get_in in G.
    apply in_map_iff. exists (x, 0%Z). split; auto.
    apply filter_In. split; auto.
  - intros l1 x l2 E. destruct l1; discriminate.
Qed.

(** The shape of the result on a graph with deduplicated edges: the nodes
    the [while] loop placed, each after all its predecessors, followed by the
    other tables in registration order, each of which has a predecessor that
    was not placed either. *)
Lemma execution_order_shape (set_iter : list string -> list string) (g : LineageGraph) :
  (forall s, Permutation (set_iter s) s) ->
  Dict.wf (tables g) ->
  edges_dedup g ->
  exists final,
    get_execution_order set_iter g
    = Done (final ++ filter (fun t => negb (str_in t final)) (Dict.keys (tables g)))%list
    /\ NoDup final
    /\ incl final (Dict.keys (tables g))
    /\ (forall l1 x l2, final = (l1 ++ x :: l2)%list -> incl (preds g x) l1)
    /\ (forall x, In x (Dict.keys (tables g)) -> ~ In x final ->
                  exists p, In p (preds g x) /\ ~ In p final).
Proof.
  intros SP W DD. pose proof (@build_spec g W) as B.
  unfold get_execution_order.
  destruct (build g) as [adj in_degree] eqn:EB.
  destruct B as [KA [KD [DG [ND AD]]]]. simpl in *.
  assert (B : build_inv (Dict.keys (tables g)) (edges g) (adj, in_degree))
    by (repeat split; auto; apply AD).
  pose proof (@initial_queue_inv (Dict.keys (tables g)) in_degree W KD) as J0.
  destruct (@kahn_runs set_iter SP (Dict.keys (tables g)) adj ND
              (fun u => @build_adj_incl _ _ _ u B)
              (List.length (Dict.keys (tables g))) in_degree
              (map fst (filter (fun nd => (snd nd =? 0)%Z) in_degree)) [] J0)
    as [final [in_degree_f [R [_ [NF [IN _]]]]]].
  { simpl. lia. }
  destruct (@kahn_keeps set_iter SP (Dict.keys (tables g)) adj ND
              (fun u => @build_adj_incl _ _ _ u B)
              (preds g) (fun x => @preds_nodup _ _ x DD) AD
              (List.length (Dict.keys (tables g))) in_degree
              (map fst (filter (fun nd => (snd nd =? 0)%Z) in_degree)) [] final J0)
    as [in_degree_k [DK [ZK BF]]]; auto.
  { now apply initial_kahn_inv. }
  rewrite R. rewrite app_nil_r in NF, IN.
  exists final. repeat split; auto.
  intros x HK NP.
  destruct (filter (fun p => negb (str_in p final)) (preds g x)) as [|p r] eqn:F.
  - exfalso. apply NP. specialize (ZK x HK). rewrite app_nil_r in ZK. apply ZK.
    rewrite DK, F. reflexivity.
  - assert (H : In p (filter (fun p => negb (str_in p final)) (preds g x)))
      by (rewrite F; now left).
    apply filter_In in H. destruct H as [H N].
    apply negb_true_iff, str_in_not_In in N. now exists p.
Qed.

(** A finite set in which every node has a predecessor in the set lies on
    or downstream of a cycle. *)
Section BackwardWalk.

Variable R : string -> string -> Prop.
Variable K : list string.
Variable stuck : string -> Prop.
Hypothesis stuck_in : forall x, stuck x -> In x K.
Hypothesis stuck_pred : forall x, stuck x -> exists p, R p x /\ stuck p.

Lemma backward_walk n :
  forall seen x u,
    List.length K <= n + List.length seen ->
    NoDup seen ->
    incl seen K ->
    stuck x ->
    (forall y, In y seen -> clos_trans string R x y) ->
    clos_refl_trans string R x u ->
    exists c, clos_trans string R c c /\ clos_refl_trans string R c u.
Proof.
  induction n as [|n IH]; intros seen x u L ND IN SX RS RU;
    destruct (in_dec string_dec x seen) as [M|M];
    try (exists x; split; auto; fail).
  - exfalso.
    assert (H : List.length (x :: seen) <= List.length K).
    { apply NoDup_incl_length.
      - now constructor.
      - intros y [<-|Hy]; auto. }
    simpl in H. lia.
  - destruct (stuck_pred SX) as [p [RP SP]].
    apply (IH (x :: seen) p u); auto.
    + simpl. lia.
    + now constructor.
    + intros y [<-|Hy]; auto.
    + intros y [<-|Hy].
      * now apply t_step.
      * apply t_trans with x; auto. now apply t_step.
    + apply rt_trans with x; auto. now apply rt_step.
Qed.

Lemma stuck_below_cycle u :
  stuck u -> exists c, clos_trans string R c c /\ clos_refl_trans string R c u.
Proof.
  intros SU. apply (@backward_walk (List.length K) [] u u); auto.
  - simpl. lia.
  - constructor.
  - intros y [].
  - intros y [].
  - apply rt_refl.
Qed.

End BackwardWalk.

(** ** Positions in the order *)

Lemma index_in x l : In x l -> exists i, index x l = Some i /\ i < List.length l.
Proof.
  induction l as [|y r IH]; simpl; intros H; [tauto|].
  destruct (String.eqb_spec x y) as [->|N].
  - exists 0. split; auto. lia.
  - destruct H as [H|H]; [congruence|].
    destruct (IH H) as [i [E L]]. rewrite E. exists (Datatypes.S i). split; auto. lia.
Qed.

Lemma index_app_left x l1 l2 i : index x l1 = Some i -> index x (l1 ++ l2) = Some i.
Proof.
  revert i. induction l1 as [|y r IH]; simpl; intros i H; [discriminate|].
  destruct (String.eqb x y); auto.
  destruct (index x r) as [j|]; [|discriminate].
  now rewrite (IH j eq_refl).
Qed.

Lemma index_app_right x l1 l2 j :
  ~ In x l1 -> index x l2 = Some j -> index x (l1 ++ l2) = Some (List.length l1 + j).
Proof.
  induction l1 as [|y r IH]; simpl; intros N H; auto.
  destruct (String.eqb_spec x y) as [->|NE]; [tauto|].
  rewrite IH; auto.
Qed.

Lemma precedes_across u v l1 l2 :
  In u l1 -> ~ In v l1 -> In v l2 -> precedes u v (l1 ++ l2).
Proof.
  intros HU NV HV.
  destruct (index_in _ _ HU) as [i [EI LI]].
  destruct (index_in _ _ HV) as [j [EJ _]].
  exists i, (List.length l1 + j). repeat split.
  - now apply index_app_left.
  - now apply index_app_right.
  - lia.
Qed.

(** C1, as the code has it.  In a graph whose edge list holds no two edges
    with the same dedup key (every graph built by [add_edge] and [merge]),
    whatever order Python iterates sets in: for every [TableToTable] edge
    [u -> v] whose lowercased endpoints are both registered table ids and
    whose source [u] lies neither on a cycle of the table-to-table subgraph
    nor downstream of one, [u] precedes [v] in the order returned by
    [get_execution_order]. *)
Theorem execution_order_sound_off_cycles
        (set_iter : list string -> list string) (g : LineageGraph) (e : LineageEdge) :
  (forall s, Permutation (set_iter s) s) ->
  Dict.wf (tables g) ->
  edges_dedup g ->
  In e (edges g) ->
  e_edge_type e = TABLE_TO_TABLE ->
  In (Str.lower (e_source e)) (Dict.keys (tables g)) ->
  In (Str.lower (e_target e)) (Dict.keys (tables g)) ->
  ~ below_cycle g (Str.lower (e_source e)) ->
  exists order,
    get_execution_order set_iter g = Done order
    /\ precedes (Str.lower (e_source e)) (Str.lower (e_target e)) order.
Proof.
  intros SP W DD HE T KU KV NC.
  destruct (@execution_order_shape set_iter g SP W DD)
    as [final [R [NF [IN [BF ST]]]]].
  set (u := Str.lower (e_source e)) in *.
  set (v := Str.lower (e_target e)) in *.
  assert (UV : In u (preds g v)).
  { apply preds_tt_edge. exists e. repeat split; auto. }
  assert (PU : In u final).
  { destruct (in_dec string_dec u final) as [H|H]; auto.
    exfalso. apply NC.
    apply (@stuck_below_cycle (tt_edge g) (Dict.keys (tables g))
             (fun x => In x (Dict.keys (tables g)) /\ ~ In x final)).
    - intros x [H1 _]. exact H1.
    - intros x [H1 H2]. destruct (ST x H1 H2) as [p [Hp Np]].
      apply preds_tt_edge in Hp. exists p. repeat split; auto.
      destruct Hp as [e' [_ [_ [_ [_ [Kp _]]]]]]. exact Kp.
    - split; auto. }
  eexists. split; [exact R|].
  destruct (in_dec string_dec v final) as [PV|PV].
  - destruct (in_split _ _ PV) as [l1 [l2 E]].
    assert (U1 : In u l1) by (apply (BF l1 v l2 E); exact UV).
    assert (V1 : ~ In v l1).
    { rewrite E in NF. apply NoDup_remove_2 in NF.
      intros C. apply NF. apply in_or_app. now left. }
    rewrite E, <- app_assoc. apply precedes_across; auto.
    simpl. now left.
  - apply precedes_across; auto.
    apply filter_In. split; auto.
    apply negb_true_iff. now apply str_in_not_In.
Qed.

Lemma execution_order_sound_off_cycles_witness :
  exists order,
    get_execution_order (fun s => s) Samples.diamond = Done order
    /\ precedes "a" "b" order.
Proof.
  apply (@execution_order_sound_off_cycles (fun s => s) Samples.diamond
           (mkEdge "a" "b" TABLE_TO_TABLE None None)).
  - intros s. apply Permutation_refl.
  - unfold Dict.wf. vm_compute. repeat constructor; simpl; intuition discriminate.
  - unfold edges_dedup. vm_compute. repeat constructor; simpl; intuition discriminate.
  - vm_compute. tauto.
  - reflexivity.
  - vm_compute. tauto.
  - vm_compute. tauto.
  - change (~ below_cycle Samples.diamond "a").
    assert (NP : forall y, ~ tt_edge Samples.diamond y "a").
    { intros y [e' [H [_ [_ [E _]]]]]. vm_compute in H.
      destruct H as [<-|[<-|[<-|[<-|[]]]]]; discriminate. }
    intros [c [C RT]].
    assert (E : c = "a").
    { apply clos_rt_rtn1 in RT.
      inversion RT; subst; [reflexivity | exfalso; eapply NP; eassumption]. }
    subst c. apply clos_trans_tn1 in C.
    inversion C; subst; eapply NP; eassumption.
Defined.

(** C1 as stated fails.  The three statements [CREATE TABLE c AS SELECT *
    FROM b], [CREATE TABLE a AS SELECT * FROM b], [CREATE TABLE b AS SELECT *
    FROM a] register [c], [b], [a] in this order, with the edges [b -> c],
    [b -> a], [a -> b].  The edge [b -> c] has both endpoints registered and
    is on no cycle ([c] leads nowhere), but [b] is on the cycle [a <-> b]:
    no node ever has in-degree zero, the queue starts empty, every table is
    appended in registration order, and [c] comes before [b]. *)
Lemma execution_order_breaks_edge_below_cycle :
  In (mkEdge "b" "c" TABLE_TO_TABLE None None) (edges Samples.cyclic_pipeline)
  /\ In "b" (Dict.keys (tables Samples.cyclic_pipeline))
  /\ In "c" (Dict.keys (tables Samples.cyclic_pipeline))
  /\ ~ on_cycle Samples.cyclic_pipeline "b" "c"
  /\ get_execution_order (fun s => s) Samples.cyclic_pipeline = Done ["c"; "b"; "a"]
  /\ ~ precedes "b" "c" ["c"; "b"; "a"].
Proof.
  split; [vm_compute; tauto|].
  split; [vm_compute; tauto|].
  split; [vm_compute; tauto|].
  split; [|split; [reflexivity|]].
  - unfold on_cycle. intros RT. apply clos_rt_rt1n in RT.
    assert (NS : forall y, ~ tt_edge Samples.cyclic_pipeline "c" y).
    { intros y [e' [H [_ [E _]]]]. vm_compute in H.
      destruct H as [<-|[<-|[<-|[]]]]; discriminate. }
    inversion RT; subst. eapply NS; eassumption.
  - intros [i [j [Hi [Hj L]]]]. vm_compute in Hi, Hj.
    injection Hi as <-. injection Hj as <-. lia.
Qed.

(** * Further properties of the code *)

(** ** Lowercasing *)

Lemma lower_ascii_idem c : Str.lower_ascii (Str.lower_ascii c) = Str.lower_ascii c.
Proof. destruct c as [[] [] [] [] [] [] [] []]; reflexivity. Qed.

Lemma lower_idem s : Str.lower (Str.lower s) = Str.lower s.
Proof.
  induction s as [|c r IH]; simpl; [reflexivity|].
  now rewrite lower_ascii_idem, IH.
Qed.

Lemma lower_app a b : Str.lower (a ++ b) = Str.lower a ++ Str.lower b.
Proof.
  induction a as [|c r IH]; simpl; [reflexivity|]. now rewrite IH.
Qed.

Lemma lower_nonempty s : Str.nonempty (Str.lower s) = Str.nonempty s.
Proof. now destruct s. Qed.

Lemma table_id_lower t : Str.lower (table_id t) = table_id t.
Proof. apply lower_idem. Qed.

Lemma column_id_lower c : Str.lower (column_id c) = column_id c.
Proof. apply lower_idem. Qed.

(** ** Registering nodes *)

(** X1. [add_table] on an id that is not yet registered appends the node at
    the end of [tables] (earlier ids keep their place, which is what the
    execution-order engine iterates over), a lookup of the returned id then
    gives the node built from the table and the node type, and neither
    columns nor edges change. *)
Theorem add_table_fresh (t : Table) (node_type : string) (g : LineageGraph) :
  Dict.mem (table_id t) (tables g) = false ->
  let node := mkTableNode (table_id t) (t_name t) (t_schema_name t) (t_database t)
                          (t_source_file t) (t_is_cte t) node_type in
  tables (add_table t node_type g) = (tables g ++ [(table_id t, node)])%list
  /\ Dict.get (table_id t) (tables (add_table t node_type g)) = Some node
  /\ columns (add_table t node_type g) = columns g
  /\ edges (add_table t node_type g) = edges g.
Proof.
  intros F node. unfold add_table. rewrite F. simpl. repeat split.
  - now apply dict_set_fresh.
  - apply dict_get_set_eq.
Qed.

Lemma add_table_fresh_witness :
  tables (add_table (Table_named "Orders") "view" empty_graph)
  = [("orders", mkTableNode "orders" "Orders" None None None false "view")].
Proof.
  destruct (@add_table_fresh (Table_named "Orders") "view" empty_graph) as [H _].
  - reflexivity.
  - exact H.
Defined.

(** X2. The id [add_column] gives a column with an owning table is the
    table's node id, a dot, and the lowercased column name; the node stored
    for a fresh id carries that table's node id as [table_id], and a column
    without owning table gets its lowercased name as id and the empty
    [table_id]. *)
Theorem add_column_ids (name : string) (t : Table) (g : LineageGraph) :
  column_id (mkColumn name (Some t)) = table_id t ++ "." ++ Str.lower name
  /\ column_id (mkColumn name None) = Str.lower name
  /\ (Dict.mem (column_id (mkColumn name (Some t))) (columns g) = false ->
      Dict.get (column_id (mkColumn name (Some t)))
               (columns (add_column (mkColumn name (Some t)) g))
      = Some (mkColumnNode (table_id t ++ "." ++ Str.lower name) name (table_id t)))
  /\ (Dict.mem (column_id (mkColumn name None)) (columns g) = false ->
      Dict.get (column_id (mkColumn name None))
               (columns (add_column (mkColumn name None) g))
      = Some (mkColumnNode (Str.lower name) name "")).
Proof.
  assert (E : column_id (mkColumn name (Some t)) = table_id t ++ "." ++ Str.lower name).
  { unfold column_id, column_qualified_name, table_id. simpl.
    now rewrite lower_app. }
  split; [exact E|]. split; [reflexivity|]. split.
  - intros F. unfold add_column. fold (column_id (mkColumn name (Some t))).
    rewrite F. simpl. rewrite dict_get_set_eq. now rewrite E.
  - intros F. unfold add_column. fold (column_id (mkColumn name None)).
    rewrite F. simpl. now rewrite dict_get_set_eq.
Qed.

Lemma add_column_ids_witness :
  Dict.get "sales.orders.id"
           (columns (add_column (mkColumn "ID" (Some (mkTable "Orders" (Some "Sales") None None false)))
                                empty_graph))
  = Some (mkColumnNode "sales.orders.id" "ID" "sales.orders").
Proof.
  destruct (@add_column_ids "ID" (mkTable "Orders" (Some "Sales") None None false) empty_graph)
    as [_ [_ [H _]]].
  apply H. reflexivity.
Defined.

(** ** The invariant of the graph *)

Lemma wf_set_fresh V (k : string) (v : V) d :
  Dict.wf d -> Dict.mem k d = false -> Dict.wf (Dict.set k v d).
Proof.
  unfold Dict.wf. intros W F. rewrite dict_keys_set_fresh by exact F.
  apply NoDup_rev in W. rewrite <- (rev_involutive (_ ++ _)).
  apply NoDup_rev. rewrite rev_app_distr. simpl. constructor; auto.
  rewrite <- in_rev. now apply dict_mem_false_keys.
Qed.

Lemma in_set_fresh V (k : string) (v : V) d kv :
  Dict.mem k d = false -> In kv (Dict.set k v d) -> In kv d \/ kv = (k, v).
Proof.
  intros F H. rewrite dict_set_fresh in H by exact F.
  apply in_app_or in H. destruct H as [H|[H|[]]]; auto.
Qed.

Lemma merge_dict_inv V (Q : string * V -> Prop) (other self : Dict.t V) :
  Dict.wf self ->
  (forall kv, In kv self -> Q kv) ->
  (forall kv, In kv other -> Q kv) ->
  Dict.wf (merge_dict self other)
  /\ forall kv, In kv (merge_dict self other) -> Q kv.
Proof.
  unfold merge_dict. revert self.
  induction other as [|[k v] r IH]; simpl; intros self W QS QO; [auto|].
  destruct (Dict.mem k self) eqn:M.
  - apply IH; auto.
  - apply IH; auto.
    + now apply wf_set_fresh.
    + intros kv H. apply in_set_fresh in H; auto.
      destruct H as [H | ->]; auto.
Qed.

Lemma well_formed_empty : well_formed empty_graph.
Proof.
  split; [|split; [|split; [|split]]].
  - apply NoDup_nil.
  - apply NoDup_nil.
  - apply NoDup_nil.
  - intros k n [].
  - intros k n [].
Qed.

Lemma well_formed_add_table t node_type g :
  well_formed g -> well_formed (add_table t node_type g).
Proof.
  intros W. pose proof W as [WT [WC [DD [IT IC]]]]. unfold add_table.
  destruct (Dict.mem (table_id t) (tables g)) eqn:M; [exact W|].
  split; [|split; [|split; [|split]]]; simpl; auto.
  - now apply wf_set_fresh.
  - intros k n H. apply in_set_fresh in H; auto. destruct H as [H|H]; auto.
    injection H as -> ->. simpl. split; [reflexivity | apply table_id_lower].
Qed.

Lemma well_formed_add_column c g :
  well_formed g -> well_formed (add_column c g).
Proof.
  intros W. pose proof W as [WT [WC [DD [IT IC]]]].
  unfold add_column. fold (column_id c).
  destruct (Dict.mem (column_id c) (columns g)) eqn:M; [exact W|].
  split; [|split; [|split; [|split]]]; simpl; auto.
  - now apply wf_set_fresh.
  - intros k n H. apply in_set_fresh in H; auto. destruct H as [H|H]; auto.
    injection H as -> ->. simpl. split; [reflexivity | apply column_id_lower].
Qed.

Lemma well_formed_add_edge e g : well_formed g -> well_formed (add_edge e g).
Proof.
  intros [WT [WC [DD [IT IC]]]].
  split; [|split; [|split; [|split]]]; simpl; auto.
  unfold edges_dedup. simpl. now apply add_edge_list_dedup.
Qed.

Lemma well_formed_merge g other :
  well_formed g -> well_formed other -> well_formed (merge g other).
Proof.
  intros [WT [WC [DD [IT IC]]]] [_ [_ [_ [OT OC]]]].
  destruct (@merge_dict_inv TableNode
              (fun kv => tn_id (snd kv) = fst kv /\ Str.lower (fst kv) = fst kv)
              (tables other) (tables g) WT) as [W1 Q1].
  { intros [k n] H. simpl. now apply IT. }
  { intros [k n] H. simpl. now apply OT. }
  destruct (@merge_dict_inv ColumnNode
              (fun kv => cn_id (snd kv) = fst kv /\ Str.lower (fst kv) = fst kv)
              (columns other) (columns g) WC) as [W2 Q2].
  { intros [k n] H. simpl. now apply IC. }
  { intros [k n] H. simpl. now apply OC. }
  split; [|split; [|split; [|split]]]; simpl; auto.
  - unfold edges_dedup. simpl. now apply fold_add_edge_dedup.
  - intros k n H. apply (Q1 (k, n) H).
  - intros k n H. apply (Q2 (k, n) H).
Qed.

(** X3. The invariant of the graph: the empty graph is well formed (each
    dict key once, every node stored under its own lowercase id, no two edges
    with the same dedup key), and [add_table], [add_column], [add_edge] and
    [merge] of a well-formed graph keep it so. *)
Theorem well_formed_preserved (g other : LineageGraph) :
  well_formed empty_graph
  /\ (well_formed g ->
      (forall t node_type, well_formed (add_table t node_type g))
      /\ (forall c, well_formed (add_column c g))
      /\ (forall e, well_formed (add_edge e g))
      /\ (well_formed other -> well_formed (merge g other))).
Proof.
  split; [apply well_formed_empty|]. intros W.
  split; [|split; [|split]].
  - intros. now apply well_formed_add_table.
  - intros. now apply well_formed_add_column.
  - intros. now apply well_formed_add_edge.
  - intros. now apply well_formed_merge.
Qed.

Lemma well_formed_preserved_witness :
  well_formed (add_edge (mkEdge "A" "b" TABLE_TO_TABLE None None)
                        (add_table (Table_named "A") "table" empty_graph)).
Proof.
  destruct (@well_formed_preserved (add_table (Table_named "A") "table" empty_graph)
              empty_graph) as [_ H].
  apply H. clear H.
  destruct (@well_formed_preserved empty_graph empty_graph) as [W H].
  apply (H W).
Defined.

(** ** [merge] as a union *)

Lemma merge_dict_keys_only V (other self : Dict.t V) k :
  In k (Dict.keys (merge_dict self other)) ->
  In k (Dict.keys self) \/ In k (Dict.keys other).
Proof.
  unfold merge_dict. revert self.
  induction other as [|[k' v] r IH]; simpl; intros self H; [now left|].
  apply IH in H. destruct H as [H|H]; [|now right; right].
  destruct (Dict.mem k' self) eqn:M; [now left|].
  rewrite dict_keys_set_fresh in H by exact M.
  apply in_app_or in H. destruct H as [H|[H|[]]]; auto.
Qed.

Lemma add_edge_list_in x e es :
  edge_in x (add_edge_list e es) = edge_in x es || LineageEdge_eqb x e.
Proof.
  unfold add_edge_list. destruct (edge_in e es) eqn:M.
  - destruct (LineageEdge_eqb x e) eqn:E; [|now rewrite orb_false_r].
    rewrite orb_true_r. apply edge_in_key.
    apply LineageEdge_eqb_key in E. rewrite E. now apply edge_in_key.
  - rewrite edge_in_app. simpl. now rewrite orb_false_r.
Qed.

Lemma fold_add_edge_in x other es :
  edge_in x (fold_left (fun acc e => add_edge_list e acc) other es)
  = edge_in x es || edge_in x other.
Proof.
  revert es. induction other as [|e r IH]; simpl; intros es.
  - now rewrite orb_false_r.
  - rewrite IH, add_edge_list_in. now rewrite orb_assoc.
Qed.

(** X4. [merge] is a union: a table id (a column id) is registered after
    [self.merge(other)] exactly when it was registered in [self] or in
    [other], and an edge is matched (through [__eq__]) by the merged edge
    list exactly when it is matched by the edges of [self] or of [other].  So
    which ids and which edge keys are present does not depend on the order in
    which graphs are merged. *)
Theorem merge_is_union (g h : LineageGraph) :
  (forall k, In k (Dict.keys (tables (merge g h)))
             <-> In k (Dict.keys (tables g)) \/ In k (Dict.keys (tables h)))
  /\ (forall k, In k (Dict.keys (columns (merge g h)))
                <-> In k (Dict.keys (columns g)) \/ In k (Dict.keys (columns h)))
  /\ (forall x, edge_in x (edges (merge g h))
                = edge_in x (edges g) || edge_in x (edges h))
  /\ (forall k, In k (Dict.keys (tables (merge g h)))
                <-> In k (Dict.keys (tables (merge h g)))).
Proof.
  assert (T : forall a b k, In k (Dict.keys (tables (merge a b)))
                            <-> In k (Dict.keys (tables a)) \/ In k (Dict.keys (tables b))).
  { intros a b k. simpl. split.
    - apply merge_dict_keys_only.
    - intros [H|H]; apply dict_mem_keys.
      + apply merge_dict_mono. now apply dict_mem_keys.
      + apply in_map_iff in H. destruct H as [kv [<- H]]. now apply merge_dict_brings. }
  split; [apply T|]. split; [|split].
  - intros k. simpl. split.
    + apply merge_dict_keys_only.
    + intros [H|H]; apply dict_mem_keys.
      * apply merge_dict_mono. now apply dict_mem_keys.
      * apply in_map_iff in H. destruct H as [kv [<- H]]. now apply merge_dict_brings.
  - intros x. simpl. apply fold_add_edge_in.
  - intros k. rewrite !T. tauto.
Qed.

Lemma merge_dict_disjoint V (other self : Dict.t V) :
  NoDup (Dict.keys self ++ Dict.keys other) ->
  merge_dict self other = (self ++ other)%list.
Proof.
  unfold merge_dict. revert self.
  induction other as [|[k v] r IH]; simpl; intros self ND.
  - now rewrite app_nil_r.
  - assert (F : Dict.mem k self = false).
    { apply dict_mem_false_keys. apply NoDup_remove_2 in ND.
      intros C. apply ND. apply in_or_app. now left. }
    rewrite F, dict_set_fresh by exact F.
    rewrite IH.
    + now rewrite <- app_assoc.
    + unfold Dict.keys in *. rewrite map_app. simpl. now rewrite <- app_assoc.
Qed.

Lemma fold_add_edge_disjoint other es :
  NoDup (map edge_key (es ++ other)) ->
  fold_left (fun acc e => add_edge_list e acc) other es = (es ++ other)%list.
Proof.
  revert es. induction other as [|e r IH]; simpl; intros es ND.
  - now rewrite app_nil_r.
  - assert (F : edge_in e es = false).
    { destruct (edge_in e es) eqn:M; auto. exfalso.
      apply edge_in_key in M. rewrite map_app in ND. simpl in ND.
      apply NoDup_remove_2 in ND. apply ND. apply in_or_app. now left. }
    unfold add_edge_list at 2. rewrite F. rewrite IH.
    + now rewrite <- app_assoc.
    + now rewrite <- app_assoc.
Qed.

(** X5. The empty graph is neutral for [merge]: merging the empty graph
    into any graph changes nothing, and merging a well-formed graph into the
    empty graph reproduces it, nodes and edges in their order. *)
Theorem merge_empty (g : LineageGraph) :
  merge g empty_graph = g
  /\ (well_formed g -> merge empty_graph g = g).
Proof.
  split.
  - now destruct g.
  - intros [WT [WC [DD _]]]. unfold merge. simpl.
    rewrite !merge_dict_disjoint, fold_add_edge_disjoint; auto.
    now destruct g.
Qed.

Lemma merge_empty_witness :
  merge empty_graph Samples.diamond = Samples.diamond.
Proof.
  destruct (@merge_empty Samples.diamond) as [_ H]. apply H.
  split; [|split; [|split; [|split]]].
  - unfold Dict.wf. vm_compute. repeat constructor; simpl; intuition discriminate.
  - apply NoDup_nil.
  - unfold edges_dedup. vm_compute. repeat constructor; simpl; intuition discriminate.
  - intros k n H0. vm_compute in H0.
    destruct H0 as [H0|[H0|[H0|[H0|[]]]]]; injection H0 as <- <-; split; reflexivity.
  - intros k n [].
Defined.

(** ** Upstream and downstream *)

(** X6. [get_upstream] and [get_downstream] are converse to each other up
    to letter case, whatever the kind of the edges: the source of every stored
    edge is upstream of its target and the target downstream of its source;
    [x] is upstream of [y] only if [y], lowercased, is among the lowercased
    downstream ids of [x], and the other way round. *)
Theorem upstream_downstream_converse (g : LineageGraph) :
  (forall e, In e (edges g) ->
             In (e_source e) (get_upstream g (e_target e))
             /\ In (e_target e) (get_downstream g (e_source e)))
  /\ (forall x y, In x (get_upstream g y) ->
                  In (Str.lower y) (map Str.lower (get_downstream g x)))
  /\ (forall x y, In y (get_downstream g x) ->
                  In (Str.lower x) (map Str.lower (get_upstream g y))).
Proof.
  unfold get_upstream, get_downstream. split; [|split].
  - intros e H. split; apply in_map; apply filter_In; split; auto;
      apply String.eqb_refl.
  - intros x y H. apply in_map_iff in H. destruct H as [e [<- H]].
    apply filter_In in H. destruct H as [H E]. apply String.eqb_eq in E.
    rewrite <- E. apply in_map. apply in_map. apply filter_In. split; auto.
    apply String.eqb_refl.
  - intros x y H. apply in_map_iff in H. destruct H as [e [<- H]].
    apply filter_In in H. destruct H as [H E]. apply String.eqb_eq in E.
    rewrite <- E. apply in_map. apply in_map. apply filter_In. split; auto.
    apply String.eqb_refl.
Qed.

Lemma upstream_downstream_converse_witness :
  In "a" (get_upstream Samples.diamond "b")
  /\ In "b" (get_downstream Samples.diamond "a").
Proof.
  destruct (@upstream_downstream_converse Samples.diamond) as [H _].
  apply (H (mkEdge "a" "b" TABLE_TO_TABLE None None)).
  vm_compute. tauto.
Defined.

(** ** Splitting and joining qualified names *)

Lemma append_assoc (a b c : string) : (a ++ b) ++ c = a ++ (b ++ c).
Proof. induction a as [|x r IH]; simpl; [reflexivity | now rewrite IH]. Qed.

Lemma split_dot_nonempty s : Str.split_dot s <> [].
Proof.
  destruct s as [|c r]; simpl; [discriminate|].
  destruct (Ascii.eqb c Str.dot); [discriminate|].
  destruct (Str.split_dot r); discriminate.
Qed.

Lemma join_split_dot s : Str.join "." (Str.split_dot s) = s.
Proof.
  induction s as [|c r IH]; [reflexivity|].
  pose proof (split_dot_nonempty r) as NE.
  simpl. destruct (Ascii.eqb_spec c Str.dot) as [->|N].
  - destruct (Str.split_dot r) as [|p ps]; [contradiction|].
    change (Str.join "." ("" :: p :: ps)) with ("." ++ Str.join "." (p :: ps)).
    now rewrite IH.
  - destruct (Str.split_dot r) as [|p ps]; [contradiction|].
    rewrite <- IH. destruct ps; reflexivity.
Qed.

Lemma join_snoc sep l x :
  l <> [] -> Str.join sep (l ++ [x]) = Str.join sep l ++ sep ++ x.
Proof.
  induction l as [|a r IH]; intros NE; [contradiction|].
  destruct r as [|b t]; [reflexivity|].
  change (Str.join sep ((a :: b :: t) ++ [x]))
    with (a ++ sep ++ Str.join sep ((b :: t) ++ [x])).
  rewrite IH by discriminate.
  change (Str.join sep (a :: b :: t)) with (a ++ sep ++ Str.join sep (b :: t)).
  now rewrite !append_assoc.
Qed.

Lemma join_rsplit_dot1 s : Str.join "." (Str.rsplit_dot1 s) = s.
Proof.
  unfold Str.rsplit_dot1.
  destruct (rev (Str.split_dot s)) as [|l [|b bs]] eqn:E; try reflexivity.
  assert (S : Str.split_dot s = (rev (b :: bs) ++ [l])%list).
  { rewrite <- (rev_involutive (Str.split_dot s)), E. reflexivity. }
  change (Str.join "." [Str.join "." (rev (b :: bs)); l])
    with (Str.join "." (rev (b :: bs)) ++ "." ++ l).
  rewrite <- join_snoc.
  - rewrite <- S. apply join_split_dot.
  - simpl. intros C. apply app_eq_nil in C. destruct C as [_ C]. discriminate.
Qed.

(** ** The serialized graph *)

Lemma d3_split_parts_get k k1 k2 parts d :
  k1 <> k -> k2 <> k ->
  Dict.get k (d3_split_parts k1 k2 parts d) = Dict.get k d.
Proof.
  intros N1 N2. unfold d3_split_parts.
  destruct parts as [|a [|b [|c r]]]; auto.
  now rewrite !dict_get_set_neq.
Qed.

Lemma d3_link_base e k :
  In k ["source"; "target"; "type"; "expression"; "source_file"] ->
  Dict.get k (d3_link e)
  = Dict.get k [ ("source", JStr (e_source e));
                 ("target", JStr (e_target e));
                 ("type", JStr (EdgeType_value (e_edge_type e)));
                 ("expression", json_opt (e_expression e));
                 ("source_file", json_opt (e_source_file e)) ].
Proof.
  intros H. unfold d3_link. destruct (e_edge_type e); [reflexivity|].
  rewrite !d3_split_parts_get; auto;
    simpl in H; intuition (subst; discriminate).
Qed.

(** X7. [to_d3_json] loses nothing and reorders nothing: the serialized
    nodes are the table nodes followed by the column nodes, each with the id
    stored in it and its level, and the links are the edges in their order,
    each with the source, target and kind of the edge as stored (for column
    links too, whatever extra keys they get).  For a well-formed graph the
    serialized ids are the keys of [tables] followed by the keys of
    [columns]. *)
Theorem to_d3_json_faithful (g : LineageGraph) :
  map (jfield "id") (nodes (to_d3_json g))
  = (map (fun n => Some (tn_id n)) (Dict.values (tables g))
     ++ map (fun n => Some (cn_id n)) (Dict.values (columns g)))%list
  /\ map (jfield "level") (nodes (to_d3_json g))
     = (map (fun _ => Some "table") (Dict.values (tables g))
        ++ map (fun _ => Some "column") (Dict.values (columns g)))%list
  /\ map (jfield "source") (links (to_d3_json g)) = map (fun e => Some (e_source e)) (edges g)
  /\ map (jfield "target") (links (to_d3_json g)) = map (fun e => Some (e_target e)) (edges g)
  /\ map (jfield "type") (links (to_d3_json g))
     = map (fun e => Some (EdgeType_value (e_edge_type e))) (edges g)
  /\ (well_formed g ->
      map (jfield "id") (nodes (to_d3_json g))
      = map Some (Dict.keys (tables g) ++ Dict.keys (columns g))).
Proof.
  assert (I : map (jfield "id") (nodes (to_d3_json g))
              = (map (fun n => Some (tn_id n)) (Dict.values (tables g))
                 ++ map (fun n => Some (cn_id n)) (Dict.values (columns g)))%list).
  { unfold to_d3_json. simpl. rewrite map_app, !map_map. reflexivity. }
  split; [exact I|]. split; [|split; [|split; [|split]]].
  - unfold to_d3_json. simpl. rewrite map_app, !map_map. reflexivity.
  - unfold to_d3_json. simpl. rewrite map_map. apply map_ext.
    intros e. unfold jfield. rewrite d3_link_base; [reflexivity | simpl; tauto].
  - unfold to_d3_json. simpl. rewrite map_map. apply map_ext.
    intros e. unfold jfield. rewrite d3_link_base; [reflexivity | simpl; tauto].
  - unfold to_d3_json. simpl. rewrite map_map. apply map_ext.
    intros e. unfold jfield. rewrite d3_link_base; [reflexivity | simpl; tauto].
  - intros [_ [_ [_ [IT IC]]]]. rewrite I, map_app.
    unfold Dict.values, Dict.keys. rewrite !map_map. f_equal.
    + apply map_ext_in. intros [k n] H. simpl. f_equal. now apply IT.
    + apply map_ext_in. intros [k n] H. simpl. f_equal. now apply IC.
Qed.

Lemma to_d3_json_faithful_witness :
  map (jfield "id") (nodes (to_d3_json Samples.diamond))
  = map Some (Dict.keys (tables Samples.diamond) ++ Dict.keys (columns Samples.diamond)).
Proof.
  destruct (@to_d3_json_faithful Samples.diamond) as [_ [_ [_ [_ [_ H]]]]].
  apply H.
  split; [|split; [|split; [|split]]].
  - unfold Dict.wf. vm_compute. repeat constructor; simpl; intuition discriminate.
  - apply NoDup_nil.
  - unfold edges_dedup. vm_compute. repeat constructor; simpl; intuition discriminate.
  - intros k n H0. vm_compute in H0.
    destruct H0 as [H0|[H0|[H0|[H0|[]]]]]; injection H0 as <- <-; split; reflexivity.
  - intros k n [].
Defined.

(** X8. The table and column parts of a column link.  When the source of
    a [ColumnToColumn] edge splits at its last dot into [a] and [b], the link
    carries [source_table = a] and [source_column = b], and [a], a dot and
    [b] give the source back; a source without dot gets neither key.  The
    same holds of the target.  A table link never carries these keys. *)
Theorem column_link_parts (e : LineageEdge) :
  (e_edge_type e = COLUMN_TO_COLUMN ->
   (forall a b, Str.rsplit_dot1 (e_source e) = [a; b] ->
                jfield "source_table" (d3_link e) = Some a
                /\ jfield "source_column" (d3_link e) = Some b
                /\ a ++ "." ++ b = e_source e)
   /\ (forall a b, Str.rsplit_dot1 (e_target e) = [a; b] ->
                   jfield "target_table" (d3_link e) = Some a
                   /\ jfield "target_column" (d3_link e) = Some b
                   /\ a ++ "." ++ b = e_target e)
   /\ (Str.rsplit_dot1 (e_source e) = [e_source e] ->
       Dict.get "source_table" (d3_link e) = None
       /\ Dict.get "source_column" (d3_link e) = None))
  /\ (e_edge_type e = TABLE_TO_TABLE ->
      Dict.get "source_table" (d3_link e) = None
      /\ Dict.get "source_column" (d3_link e) = None
      /\ Dict.get "target_table" (d3_link e) = None
      /\ Dict.get "target_column" (d3_link e) = None).
Proof.
  split.
  - intros T. unfold d3_link, jfield. rewrite T. split; [|split].
    + intros a b E. pose proof (join_rsplit_dot1 (e_source e)) as J.
      rewrite E in J. rewrite E.
      destruct (Str.rsplit_dot1 (e_target e)) as [|x [|y [|z r]]];
        (split; [reflexivity | split; [reflexivity | exact J]]).
    + intros a b E. pose proof (join_rsplit_dot1 (e_target e)) as J.
      rewrite E in J. rewrite E.
      destruct (Str.rsplit_dot1 (e_source e)) as [|x [|y [|z r]]];
        (split; [reflexivity | split; [reflexivity | exact J]]).
    + intros E. rewrite E.
      destruct (Str.rsplit_dot1 (e_target e)) as [|x [|y [|z r]]];
        (split; reflexivity).
  - intros T. unfold d3_link. rewrite T. repeat split.
Qed.

Lemma column_link_parts_witness :
  jfield "source_table"
         (d3_link (mkEdge "schema_b.source.id" "t.id" COLUMN_TO_COLUMN None None))
  = Some "schema_b.source"
  /\ jfield "source_column"
            (d3_link (mkEdge "schema_b.source.id" "t.id" COLUMN_TO_COLUMN None None))
     = Some "id"
  /\ "schema_b.source" ++ "." ++ "id" = "schema_b.source.id".
Proof.
  destruct (@column_link_parts (mkEdge "schema_b.source.id" "t.id" COLUMN_TO_COLUMN None None))
    as [H _].
  destruct (H eq_refl) as [H1 _].
  apply (H1 "schema_b.source" "id"). reflexivity.
Defined.

(** ** Source tables *)

Lemma source_loop_spec refs :
  forall seen sources,
    seen = map table_id sources ->
    NoDup seen ->
    NoDup (map table_id (source_loop refs seen sources))
    /\ (forall t, In t sources -> In t (source_loop refs seen sources))
    /\ (forall t, In t (source_loop refs seen sources) ->
                  In t sources
                  \/ exists parent node, In (parent, node) refs
                                         /\ skipped_ref parent = false
                                         /\ t = _parse_table_ref node)
    /\ (forall parent node,
           In (parent, node) refs -> skipped_ref parent = false ->
           In (table_id (_parse_table_ref node))
              (map table_id (source_loop refs seen sources))).
Proof.
  induction refs as [|[parent node] rest IH]; intros seen sources ES ND; simpl.
  - subst seen. repeat split; auto. intros parent node [].
  - unfold skipped_ref in *.
    destruct (parent_isinstance parent [exp.Insert; exp.Create; exp.Merge]) eqn:P1.
    { destruct (IH seen sources ES ND) as [A [B [C D]]]. split; [|split; [|split]]; auto.
      - intros t H. destruct (C t H) as [H'|[p [n [H1 [H2 H3]]]]]; auto.
        right. exists p, n. auto.
      - intros p n [H|H] S; [|now apply D with p].
        injection H as <- <-. rewrite P1 in S. discriminate. }
    destruct (parent_isinstance parent [exp.CTE]) eqn:P2.
    { destruct (IH seen sources ES ND) as [A [B [C D]]]. split; [|split; [|split]]; auto.
      - intros t H. destruct (C t H) as [H'|[p [n [H1 [H2 H3]]]]]; auto.
        right. exists p, n. auto.
      - intros p n [H|H] S; [|now apply D with p].
        injection H as <- <-. rewrite P1, P2 in S. discriminate. }
    fold (table_id (_parse_table_ref node)).
    change (existsb (String.eqb (table_id (_parse_table_ref node))) seen)
      with (str_in (table_id (_parse_table_ref node)) seen).
    destruct (str_in (table_id (_parse_table_ref node)) seen) eqn:M.
    { destruct (IH seen sources ES ND) as [A [B [C D]]]. split; [|split; [|split]]; auto.
      - intros t H. destruct (C t H) as [H'|[p [n [H1 [H2 H3]]]]]; auto.
        right. exists p, n. auto.
      - intros p n [H|H] S; [|now apply D with p].
        injection H as <- <-. apply str_in_In in M. subst seen.
        apply in_map_iff in M. destruct M as [t [E H]].
        rewrite <- E. apply in_map. now apply B. }
    destruct (IH (seen ++ [table_id (_parse_table_ref node)])%list
                 (sources ++ [_parse_table_ref node])%list) as [A [B [C D]]].
    { subst seen. now rewrite map_app. }
    { apply NoDup_rev in ND. rewrite <- (rev_involutive (_ ++ _)).
      apply NoDup_rev. rewrite rev_app_distr. simpl. constructor; auto.
      rewrite <- in_rev. now apply str_in_not_In. }
    split; [|split; [|split]]; auto.
    + intros t H. apply B. apply in_or_app. now left.
    + intros t H. destruct (C t H) as [H'|[p [n [H1 [H2 H3]]]]].
      * apply in_app_or in H'. destruct H' as [H'|[<-|[]]]; auto.
        right. exists parent, node. rewrite P1, P2. auto.
      * right. exists p, n. auto.
    + intros p n [H|H] S; [|now apply D with p].
      injection H as <- <-. apply in_map. apply B. apply in_or_app. right. now left.
Qed.

(** X9. What [_get_source_tables] returns: the sources have pairwise
    distinct lowercased qualified names; each is the table of a reference of
    the tree whose parent is no [Insert], [Create], [Merge] or [CTE] node,
    with no source file and no CTE flag yet; and every such reference has its
    lowercased qualified name among those of the sources. *)
Theorem source_tables_distinct (expression : exp.Expression) :
  NoDup (map table_id (_get_source_tables expression))
  /\ (forall t, In t (_get_source_tables expression) ->
                (exists parent node,
                    In (parent, node) (exp.find_all_p exp.Table expression)
                    /\ skipped_ref parent = false
                    /\ t = _parse_table_ref node)
                /\ t_source_file t = None /\ t_is_cte t = false)
  /\ (forall parent node,
         In (parent, node) (exp.find_all_p exp.Table expression) ->
         skipped_ref parent = false ->
         In (table_id (_parse_table_ref node))
            (map table_id (_get_source_tables expression))).
Proof.
  unfold _get_source_tables.
  destruct (@source_loop_spec (exp.find_all_p exp.Table expression) [] [])
    as [A [_ [C D]]]; [reflexivity | apply NoDup_nil |].
  split; [exact A|]. split; [|exact D].
  intros t H. destruct (C t H) as [[]|[p [n [H1 [H2 H3]]]]].
  split; [exists p, n; auto|]. subst t. split; reflexivity.
Qed.

Lemma source_tables_distinct_witness :
  In (table_id (_parse_table_ref (Samples.tbl "b")))
     (map table_id (_get_source_tables Samples.ctas_join)).
Proof.
  destruct (@source_tables_distinct Samples.ctas_join) as [_ [_ H]].
  apply (H (Some (Samples.join (Samples.tbl "b")
                    (Samples.eq (Samples.col "a" "k") (Samples.col "b" "k"))))).
  - vm_compute. tauto.
  - reflexivity.
Defined.

(** ** What processing a statement does to the graph *)

Lemma fold_left_inv A B (f : A -> B -> A) (P : A -> Prop) (l : list B) (a : A) :
  P a -> (forall a b, In b l -> P a -> P (f a b)) -> P (fold_left f l a).
Proof.
  revert a. induction l as [|b r IH]; simpl; intros a H S.
  - exact H.
  - apply IH.
    + apply S; auto.
    + intros a' b' Hb. apply S. now right.
Qed.

Lemma fold_left_each A B (f : A -> B -> A) (R : B -> A -> Prop) (l : list B) (a : A) :
  (forall a b, R b (f a b)) ->
  (forall a b x, R x a -> R x (f a b)) ->
  forall x, In x l -> R x (fold_left f l a).
Proof.
  intros S M. revert a. induction l as [|b r IH]; simpl; intros a x H; [tauto|].
  destruct H as [<-|H]; [|now apply IH].
  apply (@fold_left_inv A B f (R b) r (f a b)); auto.
Qed.

Lemma add_table_edges t nt g : edges (add_table t nt g) = edges g.
Proof. unfold add_table. now destruct (Dict.mem _ _). Qed.

Lemma add_table_columns t nt g : columns (add_table t nt g) = columns g.
Proof. unfold add_table. now destruct (Dict.mem _ _). Qed.

Lemma add_table_keys_mono t nt g k :
  In k (Dict.keys (tables g)) -> In k (Dict.keys (tables (add_table t nt g))).
Proof.
  intros H. unfold add_table. destruct (Dict.mem (table_id t) (tables g)) eqn:M; auto.
  simpl. rewrite dict_keys_set_fresh by exact M. apply in_or_app. now left.
Qed.

Lemma add_table_get_present t nt g id :
  Dict.mem id (tables g) = true ->
  Dict.get id (tables (add_table t nt g)) = Dict.get id (tables g).
Proof.
  intros M. unfold add_table.
  destruct (Dict.mem (table_id t) (tables g)) eqn:E; simpl; auto.
  apply dict_get_set_neq. intros <-. congruence.
Qed.

Lemma add_column_tables c g : tables (add_column c g) = tables g.
Proof. unfold add_column. now destruct (Dict.mem _ _). Qed.

Lemma register_endpoint_tables s g : tables (register_endpoint s g) = tables g.
Proof.
  unfold register_endpoint. destruct (Str.rsplit_dot1 s) as [|p0 [|p1 [|]]]; auto.
  apply add_column_tables.
Qed.

Lemma add_col_edge_tables g e : tables (add_col_edge g e) = tables g.
Proof. unfold add_col_edge. simpl. now rewrite !register_endpoint_tables. Qed.

Lemma fold_add_col_edge_tables es g : tables (fold_left add_col_edge es g) = tables g.
Proof.
  apply (@fold_left_inv _ _ add_col_edge (fun g' => tables g' = tables g)); auto.
  intros a b _ H. now rewrite add_col_edge_tables.
Qed.

Lemma add_edge_list_only x e es : In x (add_edge_list e es) -> In x es \/ x = e.
Proof.
  unfold add_edge_list. destruct (edge_in e es); auto.
  intros H. apply in_app_or in H. destruct H as [H|[H|[]]]; auto.
Qed.

Lemma tag_source_id ctes sf src : table_id (tag_source ctes sf src) = table_id src.
Proof. reflexivity. Qed.

Lemma with_source_file_id sf t : table_id (with_source_file sf t) = table_id t.
Proof. reflexivity. Qed.

(** X10. A statement without target adds no edge and no column node: when
    [_get_target_table] finds no target (a bare [SELECT], a DDL statement),
    [_process_statement] leaves the edge list and [columns] as they were,
    with or without column lineage, and only ever adds table nodes. *)
Theorem no_target_no_edges (statement : exp.Expression) (g : LineageGraph)
        (source_file : option string) (include_columns : bool) :
  _get_target_table statement = None ->
  edges (_process_statement statement g source_file include_columns) = edges g
  /\ columns (_process_statement statement g source_file include_columns) = columns g
  /\ incl (Dict.keys (tables g))
          (Dict.keys (tables (_process_statement statement g source_file include_columns))).
Proof.
  intros T. unfold _process_statement. rewrite T.
  destruct (exp.isinstance statement exp.Select);
    apply (@fold_left_inv _ _ _
             (fun g' => edges g' = edges g /\ columns g' = columns g
                        /\ incl (Dict.keys (tables g)) (Dict.keys (tables g'))));
    try (repeat split; auto; apply incl_refl);
    intros a b _ [E [C I]]; rewrite add_table_edges, add_table_columns;
      repeat split; auto; intros k H; apply add_table_keys_mono; auto.
Qed.

Lemma no_target_no_edges_witness :
  edges (_process_statement
           (Samples.select [Samples.star] [("from", Samples.from (Samples.tbl "users"))])
           Samples.diamond None true)
  = edges Samples.diamond.
Proof.
  destruct (@no_target_no_edges
              (Samples.select [Samples.star] [("from", Samples.from (Samples.tbl "users"))])
              Samples.diamond None true) as [H _].
  - reflexivity.
  - exact H.
Defined.

Lemma col_ref_edges_shape alias_map source_tables source_file select_expr target_col col_ref e :
  In e (col_ref_edges alias_map source_tables source_file select_expr target_col col_ref) ->
  e_edge_type e = COLUMN_TO_COLUMN
  /\ e_source_file e = source_file
  /\ e_expression e = Some (exp.sql (exp.attrs_of select_expr))
  /\ e_target e = column_qualified_name target_col
  /\ exp.name (exp.attrs_of col_ref) <> "*"
  /\ e_source e
     = column_qualified_name
         (mkColumn (exp.name (exp.attrs_of col_ref))
                   (resolve_source_table alias_map source_tables
                                         (exp.table (exp.attrs_of col_ref)))).
Proof.
  unfold col_ref_edges.
  destruct (String.eqb_spec (exp.name (exp.attrs_of col_ref)) "*") as [|N]; [intros []|].
  intros [<-|[]]. repeat split; auto.
Qed.

(** X11. What [_extract_column_lineage] can return.  Without target it
    returns nothing.  Every edge it returns is a [ColumnToColumn] edge that
    carries the given source file and the text of a projected item of the
    main SELECT; its target is a column of the target table whose name is the
    output name of that item, never the star; its source is a column
    reference of that item, never a star, attributed by
    [resolve_source_table]. *)
Theorem column_lineage_shape (statement : exp.Expression) (target_table : option Table)
        (source_tables : list Table) (source_file : option string) :
  (target_table = None ->
   _extract_column_lineage statement target_table source_tables source_file = [])
  /\ forall e,
      In e (_extract_column_lineage statement target_table source_tables source_file) ->
      e_edge_type e = COLUMN_TO_COLUMN
      /\ e_source_file e = source_file
      /\ exists target select item n inner ref,
          target_table = Some target
          /\ main_select statement = Some select
          /\ In item (exp.expressions select)
          /\ item_target item = (Some n, inner)
          /\ n <> "*"
          /\ In ref (col_refs inner)
          /\ exp.name (exp.attrs_of ref) <> "*"
          /\ e_expression e = Some (exp.sql (exp.attrs_of item))
          /\ e_target e = table_qualified_name target ++ "." ++ n
          /\ e_source e
             = column_qualified_name
                 (mkColumn (exp.name (exp.attrs_of ref))
                           (resolve_source_table (build_alias_map select source_tables)
                                                 source_tables
                                                 (exp.table (exp.attrs_of ref)))).
Proof.
  split; [now intros ->|].
  intros e H. unfold _extract_column_lineage in H.
  destruct target_table as [target|]; [|destruct H].
  destruct (main_select statement) as [select|] eqn:S; [|destruct H].
  apply in_flat_map in H. destruct H as [item [I H]].
  unfold item_edges in H.
  destruct (item_target item) as [[n|] inner] eqn:T; [|destruct H].
  destruct (String.eqb_spec n "*") as [|N]; [destruct H|].
  apply in_flat_map in H. destruct H as [ref [R H]].
  apply col_ref_edges_shape in H. destruct H as [H1 [H2 [H3 [H4 [H5 H6]]]]].
  split; [exact H1|]. split; [exact H2|].
  exists target, select, item, n, inner, ref. repeat split; auto.
Qed.

Lemma column_lineage_shape_witness :
  _extract_column_lineage Samples.ctas_join None [] (Some "f.sql") = [].
Proof.
  destruct (@column_lineage_shape Samples.ctas_join None [] (Some "f.sql")) as [H _].
  apply H. reflexivity.
Defined.

Lemma keys_incl_mem V (d d' : Dict.t V) k :
  incl (Dict.keys d) (Dict.keys d') -> Dict.mem k d = true -> Dict.mem k d' = true.
Proof. intros I M. apply dict_mem_keys. apply I. now apply dict_mem_keys. Qed.

Lemma source_fold_frame ctes sf target srcs :
  forall g,
    let g' :=
      fold_left
        (fun g src =>
           add_edge (mkEdge (table_qualified_name (tag_source ctes sf src))
                            (table_qualified_name target) TABLE_TO_TABLE None sf)
                    (add_table (tag_source ctes sf src)
                               (cte_node_type (tag_source ctes sf src)) g))
        srcs g in
    columns g' = columns g
    /\ incl (Dict.keys (tables g)) (Dict.keys (tables g'))
    /\ (forall x, In x (edges g') ->
                  In x (edges g)
                  \/ (e_edge_type x = TABLE_TO_TABLE
                      /\ Str.lower (e_target x) = table_id target
                      /\ In (Str.lower (e_source x)) (Dict.keys (tables g'))))
    /\ (forall x, edge_in x (edges g) = true -> edge_in x (edges g') = true)
    /\ (forall id, Dict.mem id (tables g) = true ->
                   Dict.get id (tables g') = Dict.get id (tables g))
    /\ (forall src, In src srcs ->
                    Dict.mem (table_id src) (tables g') = true
                    /\ edge_in (mkEdge (table_qualified_name src) (table_qualified_name target)
                                       TABLE_TO_TABLE None sf)
                               (edges g') = true).
Proof.
  induction srcs as [|src r IH]; intros g; cbv zeta.
  - simpl. split; [reflexivity|]. split; [apply incl_refl|].
    split; [auto|]. split; [auto|]. split; [auto|]. intros src [].
  - simpl fold_left.
    set (g1 := add_edge (mkEdge (table_qualified_name (tag_source ctes sf src))
                                (table_qualified_name target) TABLE_TO_TABLE None sf)
                        (add_table (tag_source ctes sf src)
                                   (cte_node_type (tag_source ctes sf src)) g)).
    destruct (IH g1) as [C [I [E [M [G S]]]]].
    assert (I1 : incl (Dict.keys (tables g)) (Dict.keys (tables g1))).
    { intros k H. unfold g1. simpl. now apply add_table_keys_mono. }
    assert (R1 : Dict.mem (table_id src) (tables g1) = true).
    { unfold g1. simpl. rewrite <- (tag_source_id ctes sf src). apply add_table_registers. }
    split; [|split; [|split; [|split; [|split]]]].
    + rewrite C. unfold g1. simpl. apply add_table_columns.
    + eapply incl_tran; eauto.
    + intros x H. destruct (E x H) as [H1|H1]; [|now right].
      unfold g1 in H1. simpl in H1. apply add_edge_list_only in H1.
      rewrite add_table_edges in H1. destruct H1 as [H1 | ->]; [now left|].
      right. simpl. repeat split.
      apply I. apply dict_mem_keys. exact R1.
    + intros x H. apply M. unfold g1. simpl. apply add_edge_list_mono.
      now rewrite add_table_edges.
    + intros id H. rewrite G.
      * unfold g1. simpl. now apply add_table_get_present.
      * eapply keys_incl_mem; eauto.
    + intros s [<-|H]; [|now apply S].
      split.
      * eapply keys_incl_mem; eauto.
      * apply M. unfold g1. simpl. apply add_edge_list_brings.
Qed.

Lemma fold_add_col_edge_only es g x :
  In x (edges (fold_left add_col_edge es g)) -> In x (edges g) \/ In x es.
Proof.
  revert g. induction es as [|e r IH]; simpl; intros g H; [now left|].
  apply IH in H. destruct H as [H|H]; [|now right; right].
  unfold add_col_edge in H. simpl in H. apply add_edge_list_only in H.
  rewrite !register_endpoint_edges in H. destruct H as [H | ->]; auto.
Qed.

Lemma extracted_edges_are_column statement target_table source_tables source_file e :
  In e (_extract_column_lineage statement target_table source_tables source_file) ->
  e_edge_type e = COLUMN_TO_COLUMN.
Proof.
  unfold _extract_column_lineage.
  destruct target_table as [target|]; [|intros []].
  destruct (main_select statement) as [select|]; [|intros []].
  intros H. apply in_flat_map in H. destruct H as [item [_ H]].
  unfold item_edges in H.
  destruct (item_target item) as [[n|] inner]; [|destruct H].
  destruct (String.eqb n "*"); [destruct H|].
  apply in_flat_map in H. destruct H as [ref [_ H]].
  now apply col_ref_edges_shape in H.
Qed.

Lemma process_no_target statement g source_file include_columns :
  _get_target_table statement = None ->
  edges (_process_statement statement g source_file include_columns) = edges g
  /\ columns (_process_statement statement g source_file include_columns) = columns g
  /\ incl (Dict.keys (tables g))
          (Dict.keys (tables (_process_statement statement g source_file include_columns))).
Proof.
  intros T. unfold _process_statement. rewrite T.
  destruct (exp.isinstance statement exp.Select);
    apply (@fold_left_inv _ _ _
             (fun g' => edges g' = edges g /\ columns g' = columns g
                        /\ incl (Dict.keys (tables g)) (Dict.keys (tables g'))));
    try (repeat split; auto; apply incl_refl);
    intros a b _ [E [C I]]; rewrite add_table_edges, add_table_columns;
      repeat split; auto; intros k H; apply add_table_keys_mono; auto.
Qed.

Lemma process_without_columns statement g source_file :
  columns (_process_statement statement g source_file false) = columns g
  /\ forall x, In x (edges (_process_statement statement g source_file false)) ->
               In x (edges g) \/ e_edge_type x = TABLE_TO_TABLE.
Proof.
  destruct (_get_target_table statement) as [target|] eqn:T.
  - unfold _process_statement. rewrite T. cbv zeta.
    destruct (@source_fold_frame (_get_cte_names statement) source_file
                (with_source_file source_file target) (_get_source_tables statement)
                (add_table (with_source_file source_file target)
                           (target_node_type statement) g))
      as [C [_ [E _]]].
    split.
    + rewrite C. apply add_table_columns.
    + intros x H. destruct (E x H) as [H1|[H1 _]]; [|now right].
      left. now rewrite add_table_edges in H1.
  - destruct (@process_no_target statement g source_file false T) as [E [C _]].
    split; [exact C|]. intros x H. left. now rewrite <- E.
Qed.

(** X12. Column gating: with [include_columns=False], [extract_lineage]
    registers no column node and produces table-level edges only, whatever
    the statements are. *)
Theorem column_gating (statements : list exp.Expression) (source_file : option string) :
  columns (extract_lineage statements source_file false) = []
  /\ (forall e, In e (edges (extract_lineage statements source_file false)) ->
                e_edge_type e = TABLE_TO_TABLE)
  /\ column_edges (extract_lineage statements source_file false) = [].
Proof.
  assert (P : columns (extract_lineage statements source_file false) = []
              /\ forall e, In e (edges (extract_lineage statements source_file false)) ->
                           e_edge_type e = TABLE_TO_TABLE).
  { unfold extract_lineage.
    apply (@fold_left_inv _ _ _
             (fun g => columns g = []
                       /\ forall e, In e (edges g) -> e_edge_type e = TABLE_TO_TABLE)).
    - split; [reflexivity | intros e []].
    - intros g st _ [C E].
      destruct (@process_without_columns st g source_file) as [C' E'].
      split; [now rewrite C'|].
      intros e H. destruct (E' e H) as [H1|H1]; auto. }
  destruct P as [C E]. split; [exact C|]. split; [exact E|].
  unfold column_edges.
  destruct (filter _ _) as [|x r] eqn:F; [reflexivity|].
  assert (H : In x (x :: r)) by now left.
  rewrite <- F in H. apply filter_In in H. destruct H as [H K].
  apply E in H. rewrite H in K. discriminate.
Qed.

Lemma process_endpoints statement g source_file include_columns :
  endpoints_registered g ->
  endpoints_registered (_process_statement statement g source_file include_columns).
Proof.
  intros R. destruct (_get_target_table statement) as [target|] eqn:T.
  - unfold _process_statement. rewrite T. cbv zeta.
    set (g1 := add_table (with_source_file source_file target)
                         (target_node_type statement) g).
    destruct (@source_fold_frame (_get_cte_names statement) source_file
                (with_source_file source_file target) (_get_source_tables statement) g1)
      as [_ [I [E _]]].
    set (g2 := fold_left _ (_get_source_tables statement) g1) in *.
    assert (R2 : endpoints_registered g2).
    { intros x H K. destruct (E x H) as [H1|[_ [H2 H3]]].
      - unfold g1 in H1. rewrite add_table_edges in H1.
        destruct (R x H1 K) as [A B]. split; apply I; unfold g1;
          now apply add_table_keys_mono.
      - split; [exact H3|]. rewrite H2. apply I. apply dict_mem_keys.
        unfold g1. apply add_table_registers. }
    destruct include_columns; [|exact R2].
    intros x H K. rewrite fold_add_col_edge_tables.
    apply fold_add_col_edge_only in H. destruct H as [H|H]; [now apply R2|].
    apply extracted_edges_are_column in H. congruence.
  - destruct (@process_no_target statement g source_file include_columns T)
      as [E [_ I]].
    intros x H K. rewrite E in H. destruct (R x H K) as [A B]. split; now apply I.
Qed.

(** X13. Every table-level edge that extraction produces joins two
    registered table nodes: in the graph returned by [extract_lineage], with
    or without column lineage, the lowercased source and target of every
    [TableToTable] edge are keys of [tables], so the execution-order engine
    counts each of these edges. *)
Theorem extracted_endpoints_registered (statements : list exp.Expression)
        (source_file : option string) (include_columns : bool) :
  forall e, In e (edges (extract_lineage statements source_file include_columns)) ->
            e_edge_type e = TABLE_TO_TABLE ->
            In (Str.lower (e_source e))
               (Dict.keys (tables (extract_lineage statements source_file include_columns)))
            /\ In (Str.lower (e_target e))
                  (Dict.keys (tables (extract_lineage statements source_file include_columns))).
Proof.
  change (endpoints_registered (extract_lineage statements source_file include_columns)).
  unfold extract_lineage. apply fold_left_inv.
  - intros e [].
  - intros g st _ R. now apply process_endpoints.
Qed.

Lemma extracted_endpoints_registered_witness :
  In "a" (Dict.keys (tables Samples.diamond))
  /\ In "b" (Dict.keys (tables Samples.diamond)).
Proof.
  apply (@extracted_endpoints_registered
           [ Samples.copy_of "b" "a"; Samples.copy_of "c" "a";
             Samples.create "TABLE" (Samples.tbl "d")
               (Samples.select [Samples.star]
                  [("from", Samples.from (Samples.tbl "b"));
                   ("joins", Samples.join (Samples.tbl "c")
                               (Samples.eq (Samples.col "b" "id") (Samples.col "c" "id")))]) ]
           None false (mkEdge "a" "b" TABLE_TO_TABLE None None)).
  - vm_compute. tauto.
  - reflexivity.
Defined.

(** X14. A statement with a target registers the target and every source
    and links each source to the target: after [_process_statement], the id
    of the target and the id of every source table are keys of [tables], and
    for every source the edge list matches the [TableToTable] edge from that
    source to the target.  A target whose id was not registered before gets
    the node type of the statement ([view] for a [Create] of kind VIEW,
    [table] otherwise) and the given source file. *)
Theorem target_statement_registers (statement : exp.Expression) (g : LineageGraph)
        (source_file : option string) (include_columns : bool) (target : Table) :
  _get_target_table statement = Some target ->
  let g' := _process_statement statement g source_file include_columns in
  Dict.mem (table_id target) (tables g') = true
  /\ (forall src, In src (_get_source_tables statement) ->
                  Dict.mem (table_id src) (tables g') = true
                  /\ edge_in (mkEdge (table_qualified_name src) (table_qualified_name target)
                                     TABLE_TO_TABLE None source_file)
                             (edges g') = true)
  /\ (Dict.mem (table_id target) (tables g) = false ->
      Dict.get (table_id target) (tables g')
      = Some (mkTableNode (table_id target) (t_name target) (t_schema_name target)
                          (t_database target) source_file (t_is_cte target)
                          (target_node_type statement))).
Proof.
  intros T g'. unfold g', _process_statement. rewrite T. cbv zeta.
  set (g1 := add_table (with_source_file source_file target)
                       (target_node_type statement) g).
  destruct (@source_fold_frame (_get_cte_names statement) source_file
              (with_source_file source_file target) (_get_source_tables statement) g1)
    as [_ [I [_ [_ [G S]]]]].
  set (g2 := fold_left _ (_get_source_tables statement) g1) in *.
  assert (M1 : Dict.mem (table_id target) (tables g1) = true)
    by exact (add_table_registers (with_source_file source_file target)
                                  (target_node_type statement) g).
  assert (A : Dict.mem (table_id target) (tables g2) = true
              /\ (forall src, In src (_get_source_tables statement) ->
                              Dict.mem (table_id src) (tables g2) = true
                              /\ edge_in (mkEdge (table_qualified_name src)
                                                 (table_qualified_name target)
                                                 TABLE_TO_TABLE None source_file)
                                         (edges g2) = true)
              /\ (Dict.mem (table_id target) (tables g) = false ->
                  Dict.get (table_id target) (tables g2)
                  = Some (mkTableNode (table_id target) (t_name target)
                                      (t_schema_name target) (t_database target)
                                      source_file (t_is_cte target)
                                      (target_node_type statement)))).
  { split; [eapply keys_incl_mem; eauto|]. split; [exact S|].
    intros F. rewrite (G _ M1). unfold g1, add_table.
    rewrite with_source_file_id, F. simpl. apply dict_get_set_eq. }
  destruct include_columns; [|exact A].
  destruct A as [A1 [A2 A3]]. rewrite fold_add_col_edge_tables.
  split; [exact A1|]. split; [|exact A3].
  intros src H. destruct (A2 src H) as [B1 B2]. split; [exact B1|].
  now apply fold_add_col_edge_mono.
Qed.

Lemma target_statement_registers_witness :
  Dict.get "v"
           (tables (_process_statement
                      (Samples.create "view" (Samples.tbl "V")
                         (Samples.select [Samples.col "" "id"]
                                         [("from", Samples.from (Samples.tbl "t"))]))
                      empty_graph (Some "views.sql") true))
  = Some (mkTableNode "v" "V" None None (Some "views.sql") false "view").
Proof.
  destruct (@target_statement_registers
              (Samples.create "view" (Samples.tbl "V")
                 (Samples.select [Samples.col "" "id"]
                                 [("from", Samples.from (Samples.tbl "t"))]))
              empty_graph (Some "views.sql") true (Table_named "V")) as [_ [_ H]].
  - reflexivity.
  - apply H. reflexivity.
Defined.

Lemma resolve_source_table_single alias_map s :
  resolve_source_table alias_map [s] "" = Some s.
Proof. reflexivity. Qed.

(** X15. Attribution of an unqualified column in a single-source
    statement: when the statement has exactly one source table, a column
    reference without qualifier (not a star) in a projected item with an
    output name other than the star yields the [ColumnToColumn] edge from
    that column of the sole source to the output column of the target. *)
Theorem single_source_attribution
        (statement : exp.Expression) (target source : Table)
        (source_file : option string) (select item ref : exp.Expression)
        (n : string) (inner : option exp.Expression) :
  main_select statement = Some select ->
  In item (exp.expressions select) ->
  item_target item = (Some n, inner) ->
  n <> "*" ->
  In ref (col_refs inner) ->
  exp.table (exp.attrs_of ref) = "" ->
  exp.name (exp.attrs_of ref) <> "*" ->
  In (mkEdge (table_qualified_name source ++ "." ++ exp.name (exp.attrs_of ref))
             (table_qualified_name target ++ "." ++ n)
             COLUMN_TO_COLUMN (Some (exp.sql (exp.attrs_of item))) source_file)
     (_extract_column_lineage statement (Some target) [source] source_file).
Proof.
  intros S I T N R Q NS.
  unfold _extract_column_lineage. rewrite S.
  apply in_flat_map. exists item. split; [exact I|].
  unfold item_edges. rewrite T.
  destruct (String.eqb_spec n "*"); [contradiction|].
  apply in_flat_map. exists ref. split; [exact R|].
  unfold col_ref_edges.
  destruct (String.eqb_spec (exp.name (exp.attrs_of ref)) "*"); [contradiction|].
  rewrite Q, resolve_source_table_single. simpl. left. reflexivity.
Qed.

Lemma single_source_attribution_witness :
  In (mkEdge "Source.id" "Target.id" COLUMN_TO_COLUMN (Some "id") None)
     (_extract_column_lineage Samples.ctas_mixed_case (Some (Table_named "Target"))
                              [Table_named "Source"] None).
Proof.
  apply (@single_source_attribution Samples.ctas_mixed_case (Table_named "Target")
           (Table_named "Source") None
           (Samples.select [Samples.col "" "id"]
                           [("from", Samples.from (Samples.tbl "Source"))])
           (Samples.col "" "id") (Samples.col "" "id") "id" (Some (Samples.col "" "id"))).
  - reflexivity.
  - simpl. left. reflexivity.
  - reflexivity.
  - discriminate.
  - simpl. left. reflexivity.
  - reflexivity.
  - discriminate.
Defined.

(** ** The resolver, item by item *)

Section ResolverTrace.

Variable A : Type.
Variable include_columns : bool.
Variable name_of : A -> string.
Variable parsed_of : A -> result (list exp.Expression).

Lemma resolve_loop_trace items :
  forall g out out',
    fst (fold_left (fun st x => resolve_one include_columns (name_of x) (parsed_of x) st)
                   items (g, out))
    = fst (fold_left (fun st x => resolve_one include_columns (name_of x) (parsed_of x) st)
                     (filter (fun x => parsed_ok (parsed_of x)) items) (g, out'))
    /\ snd (fold_left (fun st x => resolve_one include_columns (name_of x) (parsed_of x) st)
                      items (g, out))
       = (out ++ flat_map (fun x => warning_of (name_of x) (parsed_of x)) items)%list.
Proof.
  induction items as [|x r IH]; intros g out out'; simpl.
  - now rewrite app_nil_r.
  - destruct (parsed_of x) as [statements|msg] eqn:E; simpl.
    + rewrite E. simpl. apply IH.
    + destruct (IH g (out ++ [warning (name_of x) msg])%list out') as [F S].
      split; [exact F|]. rewrite S. now rewrite <- app_assoc.
Qed.

Lemma resolve_loop_inv (P : LineageGraph -> Prop) items :
  (forall g h, P g -> P h -> P (merge g h)) ->
  (forall x statements, parsed_of x = Ok statements ->
                        P (extract_lineage statements (Some (name_of x)) include_columns)) ->
  forall st, P (fst st) ->
             P (fst (fold_left
                       (fun st x => resolve_one include_columns (name_of x) (parsed_of x) st)
                       items st)).
Proof.
  intros PM PE. induction items as [|x r IH]; simpl; intros st H; [exact H|].
  apply IH. unfold resolve_one. destruct (parsed_of x) as [statements|msg] eqn:E; simpl; auto.
Qed.

End ResolverTrace.

(** X16. A failing item leaves no trace in the graph and exactly one line
    in the output: the graph returned by [resolve_sql_strings] (by
    [resolve_files]) is the graph returned for the batch without the items
    that raise, and the lines printed are the warnings of the failing items,
    one each, in batch order. *)
Theorem resolver_skips_failures
        (sqlglot_parse : string -> option string
                         -> result (list (option exp.Expression)))
        (read_text : string -> result string) (path_name : string -> string)
        (dialect : option string) (include_columns : bool) :
  (forall sql_strings,
      fst (resolve_sql_strings sqlglot_parse sql_strings dialect include_columns)
      = fst (resolve_sql_strings sqlglot_parse
               (filter (fun item => parsed_ok (parse_sql sqlglot_parse (snd item) dialect))
                       sql_strings)
               dialect include_columns)
      /\ snd (resolve_sql_strings sqlglot_parse sql_strings dialect include_columns)
         = flat_map (fun item => warning_of (fst item)
                                            (parse_sql sqlglot_parse (snd item) dialect))
                    sql_strings)
  /\ (forall file_paths,
         fst (resolve_files sqlglot_parse read_text path_name file_paths dialect
                            include_columns)
         = fst (resolve_files sqlglot_parse read_text path_name
                  (filter (fun p => parsed_ok (parse_file sqlglot_parse read_text p dialect))
                          file_paths)
                  dialect include_columns)
         /\ snd (resolve_files sqlglot_parse read_text path_name file_paths dialect
                               include_columns)
            = flat_map (fun p => warning_of (path_name p)
                                            (parse_file sqlglot_parse read_text p dialect))
                       file_paths).
Proof.
  split.
  - intros sql_strings.
    apply (@resolve_loop_trace (string * string) include_columns fst
             (fun item => parse_sql sqlglot_parse (snd item) dialect)
             sql_strings empty_graph [] []).
  - intros file_paths.
    apply (@resolve_loop_trace string include_columns path_name
             (fun p => parse_file sqlglot_parse read_text p dialect)
             file_paths empty_graph [] []).
Qed.

(** ** Graphs that extraction and resolution produce *)

Lemma well_formed_register_endpoint s g :
  well_formed g -> well_formed (register_endpoint s g).
Proof.
  intros W. unfold register_endpoint.
  destruct (Str.rsplit_dot1 s) as [|p0 [|p1 [|]]]; auto.
  now apply well_formed_add_column.
Qed.

Lemma well_formed_process statement g source_file include_columns :
  well_formed g ->
  well_formed (_process_statement statement g source_file include_columns).
Proof.
  intros W. unfold _process_statement.
  destruct (_get_target_table statement) as [target|].
  - cbv zeta.
    assert (W2 : well_formed
                   (fold_left
                      (fun g src =>
                         add_edge
                           (mkEdge (table_qualified_name
                                      (tag_source (_get_cte_names statement) source_file src))
                                   (table_qualified_name (with_source_file source_file target))
                                   TABLE_TO_TABLE None source_file)
                           (add_table (tag_source (_get_cte_names statement) source_file src)
                                      (cte_node_type
                                         (tag_source (_get_cte_names statement)
                                                     source_file src)) g))
                      (_get_source_tables statement)
                      (add_table (with_source_file source_file target)
                                 (target_node_type statement) g))).
    { apply fold_left_inv.
      - now apply well_formed_add_table.
      - intros a b _ H. apply well_formed_add_edge. now apply well_formed_add_table. }
    destruct include_columns; [|exact W2].
    apply fold_left_inv; [exact W2|].
    intros a b _ H. unfold add_col_edge. apply well_formed_add_edge.
    now apply well_formed_register_endpoint, well_formed_register_endpoint.
  - destruct (exp.isinstance statement exp.Select);
      (apply fold_left_inv; [exact W|]);
      intros a b _ H; now apply well_formed_add_table.
Qed.

Lemma well_formed_extract statements source_file include_columns :
  well_formed (extract_lineage statements source_file include_columns).
Proof.
  unfold extract_lineage. apply fold_left_inv.
  - apply well_formed_empty.
  - intros g st _ H. now apply well_formed_process.
Qed.

Lemma endpoints_extract statements source_file include_columns :
  endpoints_registered (extract_lineage statements source_file include_columns).
Proof.
  unfold extract_lineage. apply fold_left_inv.
  - intros e [].
  - intros g st _ R. now apply process_endpoints.
Qed.

Lemma fold_add_edge_only other es x :
  In x (fold_left (fun acc e => add_edge_list e acc) other es) -> In x es \/ In x other.
Proof.
  revert es. induction other as [|e r IH]; simpl; intros es H; [now left|].
  apply IH in H. destruct H as [H|H]; [|now right; right].
  apply add_edge_list_only in H. destruct H as [H | ->]; auto.
Qed.

Lemma endpoints_merge g h :
  endpoints_registered g -> endpoints_registered h -> endpoints_registered (merge g h).
Proof.
  intros RG RH x H K.
  destruct (merge_holds_self g h) as [IG _].
  destruct (merge_holds_other g h) as [IH _].
  simpl in H. apply fold_add_edge_only in H. destruct H as [H|H].
  - destruct (RG x H K). split; now apply IG.
  - destruct (RH x H K). split; now apply IH.
Qed.

Lemma resolved_graph_invariants
      (sqlglot_parse : string -> option string -> result (list (option exp.Expression)))
      sql_strings dialect include_columns :
  well_formed (fst (resolve_sql_strings sqlglot_parse sql_strings dialect include_columns))
  /\ endpoints_registered
       (fst (resolve_sql_strings sqlglot_parse sql_strings dialect include_columns)).
Proof.
  unfold resolve_sql_strings.
  apply (@resolve_loop_inv (string * string) include_columns fst
           (fun item => parse_sql sqlglot_parse (snd item) dialect)
           (fun g => well_formed g /\ endpoints_registered g)).
  - intros g h [W1 R1] [W2 R2]. split.
    + now apply well_formed_merge.
    + now apply endpoints_merge.
  - intros x statements _. split.
    + apply well_formed_extract.
    + apply endpoints_extract.
  - split; [apply well_formed_empty | intros e []].
Qed.

(** X17. The resolver hands the engine a graph it handles in full: the
    graph returned by [resolve_sql_strings] is well formed, each of its
    [TableToTable] edges joins two registered table nodes, and
    [get_execution_order] returns for it a permutation of its table ids,
    whatever the batch, the parser and the order in which sets are iterated. *)
Theorem resolved_graph_is_ordered
        (sqlglot_parse : string -> option string
                         -> result (list (option exp.Expression)))
        (set_iter : list string -> list string)
        (sql_strings : list (string * string)) (dialect : option string)
        (include_columns : bool) :
  (forall s, Permutation (set_iter s) s) ->
  let g := fst (resolve_sql_strings sqlglot_parse sql_strings dialect include_columns) in
  well_formed g
  /\ endpoints_registered g
  /\ exists order, get_execution_order set_iter g = Done order
                   /\ Permutation order (Dict.keys (tables g)).
Proof.
  intros SP g.
  destruct (@resolved_graph_invariants sqlglot_parse sql_strings dialect include_columns)
    as [W R].
  fold g in W, R. split; [exact W|]. split; [exact R|].
  pose proof W as [WT [_ [DD _]]].
  destruct (@execution_order_shape set_iter g SP WT DD) as [final [E [NF [IN _]]]].
  eexists. split; [exact E|]. now apply placed_then_rest_perm.
Qed.

Lemma resolved_graph_is_ordered_witness :
  exists order,
    get_execution_order (fun s => s)
      (fst (resolve_sql_strings Samples.toy_parse
              [("bad.sql", "THIS IS NOT VALID SQL"); ("good.sql", "CREATE TABLE ...")]
              None true)) = Done order
    /\ Permutation order
         (Dict.keys (tables (fst (resolve_sql_strings Samples.toy_parse
              [("bad.sql", "THIS IS NOT VALID SQL"); ("good.sql", "CREATE TABLE ...")]
              None true)))).
Proof.
  destruct (@resolved_graph_is_ordered Samples.toy_parse (fun s => s)
              [("bad.sql", "THIS IS NOT VALID SQL"); ("good.sql", "CREATE TABLE ...")]
              None true) as [_ [_ H]].
  - intros s. apply Permutation_refl.
  - exact H.
Defined.

(** ** Topological order on acyclic graphs *)

(** X18. On an acyclic pipeline the order is topological.  For a
    well-formed graph whose [TableToTable] edges join registered tables (as
    every graph produced by extraction and resolution is) and whose
    table-to-table dependencies have no cycle, [get_execution_order] puts the
    source of every [TableToTable] edge before its target. *)
Theorem acyclic_order_is_topological
        (set_iter : list string -> list string) (g : LineageGraph) :
  (forall s, Permutation (set_iter s) s) ->
  well_formed g ->
  endpoints_registered g ->
  acyclic g ->
  exists order,
    get_execution_order set_iter g = Done order
    /\ forall e, In e (edges g) ->
                 e_edge_type e = TABLE_TO_TABLE ->
                 precedes (Str.lower (e_source e)) (Str.lower (e_target e)) order.
Proof.
  intros SP W R AC. pose proof W as [WT [_ [DD _]]].
  destruct (@execution_order_shape set_iter g SP WT DD)
    as [final [E [NF [IN [BF ST]]]]].
  assert (ALL : forall x, In x (Dict.keys (tables g)) -> In x final).
  { intros x HK. destruct (in_dec string_dec x final) as [H|H]; auto.
    exfalso.
    destruct (@stuck_below_cycle (tt_edge g) (Dict.keys (tables g))
                (fun y => In y (Dict.keys (tables g)) /\ ~ In y final)) with (u := x)
      as [c [C _]].
    - intros y [H1 _]. exact H1.
    - intros y [H1 H2]. destruct (ST y H1 H2) as [p [Hp Np]].
      apply preds_tt_edge in Hp. exists p. repeat split; auto.
      destruct Hp as [e' [_ [_ [_ [_ [Kp _]]]]]]. exact Kp.
    - split; auto.
    - now apply (AC c). }
  eexists. split; [exact E|].
  intros e HE T. destruct (R e HE T) as [KU KV].
  assert (UV : In (Str.lower (e_source e)) (preds g (Str.lower (e_target e)))).
  { apply preds_tt_edge. exists e. repeat split; auto. }
  destruct (in_split _ _ (ALL _ KV)) as [l1 [l2 EQ]].
  assert (U1 : In (Str.lower (e_source e)) l1) by (apply (BF l1 _ l2 EQ); exact UV).
  assert (V1 : ~ In (Str.lower (e_target e)) l1).
  { rewrite EQ in NF. apply NoDup_remove_2 in NF.
    intros C. apply NF. apply in_or_app. now left. }
  rewrite EQ, <- app_assoc. apply precedes_across; auto.
  simpl. now left.
Qed.

Lemma acyclic_order_is_topological_witness :
  exists order,
    get_execution_order (fun s => s) Samples.diamond = Done order
    /\ forall e, In e (edges Samples.diamond) ->
                 e_edge_type e = TABLE_TO_TABLE ->
                 precedes (Str.lower (e_source e)) (Str.lower (e_target e)) order.
Proof.
  apply (@acyclic_order_is_topological (fun s => s) Samples.diamond).
  - intros s. apply Permutation_refl.
  - apply (@well_formed_extract _ None false).
  - apply (@endpoints_extract _ None false).
  - assert (RK : forall x y, tt_edge Samples.diamond x y ->
                             (String.length x = 1 /\ y <> "a")
                             /\ (x = "a" \/ y = "d")).
    { intros x y [e [H [_ [E1 [E2 _]]]]]. vm_compute in H.
      destruct H as [<-|[<-|[<-|[<-|[]]]]]; subst; simpl;
        (split; [split; [reflexivity | discriminate] | tauto]). }
    assert (TK : forall x y, clos_trans string (tt_edge Samples.diamond) x y ->
                             y <> "a" /\ (x = "a" \/ y = "d")).
    { intros x y H. apply clos_trans_tn1 in H. induction H as [y H | y z H _ IH].
      - destruct (RK _ _ H) as [[_ A] B]. auto.
      - destruct (RK _ _ H) as [[_ A] [B|B]]; split; auto.
        destruct IH as [IH _]. congruence. }
    assert (ND : forall x, ~ tt_edge Samples.diamond "d" x).
    { intros x [e [H [_ [E1 _]]]]. vm_compute in H.
      destruct H as [<-|[<-|[<-|[<-|[]]]]]; discriminate. }
    intros c C. destruct (TK _ _ C) as [NA [->| ->]]; [congruence|].
    apply clos_trans_t1n in C. inversion C; subst; eapply ND; eassumption.
Defined.

(** ** Tables without dependencies come first *)

Lemma relax_extends neighbors :
  forall in_degree queue in_degree' queue',
    relax neighbors in_degree queue = Done (in_degree', queue') ->
    exists extra, queue' = (queue ++ extra)%list.
Proof.
  induction neighbors as [|a rest IH]; simpl; intros in_degree queue in_degree' queue' H.
  - injection H as _ <-. exists []. now rewrite app_nil_r.
  - destruct (Dict.get a in_degree) as [d|]; [|discriminate].
    apply IH in H. destruct H as [extra ->].
    destruct (d - 1 =? 0)%Z.
    + exists (a :: extra). now rewrite <- app_assoc.
    + now exists extra.
Qed.

Lemma kahn_prefix set_iter adj fuel :
  forall in_degree queue order final,
    kahn set_iter fuel adj in_degree queue order = Done final ->
    exists rest, final = (order ++ queue ++ rest)%list.
Proof.
  induction fuel as [|fuel IH]; intros in_degree queue order final H.
  - destruct queue; simpl in H; [|discriminate].
    injection H as <-. exists []. now rewrite !app_nil_r.
  - destruct queue as [|node queue]; simpl in H.
    + injection H as <-. exists []. now rewrite !app_nil_r.
    + destruct (relax (set_iter (dict_get_or node adj [])) in_degree queue)
        as [[in_degree' queue']| |] eqn:R; try discriminate.
      apply relax_extends in R. destruct R as [extra ->].
      apply IH in H. destruct H as [rest ->].
      exists (extra ++ rest)%list. rewrite <- !app_assoc. reflexivity.
Qed.

Lemma dict_filter_keys (f : Z -> bool) (d : Dict.t Z) :
  NoDup (Dict.keys d) ->
  map fst (filter (fun nd => f (snd nd)) d) = filter (fun k => f (deg d k)) (Dict.keys d).
Proof.
  unfold Dict.keys. induction d as [|[k v] r IH]; intros ND; [reflexivity|].
  inversion ND as [|? ? NK ND']; subst.
  assert (E : filter (fun k0 => f (deg ((k, v) :: r) k0)) (map fst r)
              = filter (fun k0 => f (deg r k0)) (map fst r)).
  { apply filter_ext_in. intros k0 H. unfold deg, dict_get_or. simpl.
    destruct (String.eqb_spec k0 k) as [->|N]; [contradiction | reflexivity]. }
  simpl. unfold deg at 1, dict_get_or. simpl. rewrite String.eqb_refl.
  rewrite E, <- (IH ND'). now destruct (f v).
Qed.

Lemma initial_queue_roots g adj in_degree :
  Dict.wf (tables g) ->
  build_inv (Dict.keys (tables g)) (edges g) (adj, in_degree) ->
  map fst (filter (fun nd => (snd nd =? 0)%Z) in_degree) = roots g.
Proof.
  intros W [_ [KD [DG _]]]. simpl in *.
  rewrite (@dict_filter_keys (fun z => (z =? 0)%Z)) by (now rewrite KD).
  rewrite KD. unfold roots. apply filter_ext. intros t.
  rewrite DG. fold (preds g t). now destruct (preds g t).
Qed.

Lemma filter_all_placed (l : list string) :
  filter (fun t => negb (str_in t l)) l = [].
Proof.
  destruct (filter (fun t => negb (str_in t l)) l) as [|x r] eqn:F; [reflexivity|].
  assert (H : In x (x :: r)) by now left.
  rewrite <- F in H. apply filter_In in H. destruct H as [H N].
  apply negb_true_iff, str_in_not_In in N. contradiction.
Qed.

Lemma filter_keep_all A (l : list A) : filter (fun _ => true) l = l.
Proof. induction l as [|a r IH]; simpl; [reflexivity | now rewrite IH]. Qed.

Lemma no_table_edges_no_preds g t : table_edges g = [] -> preds g t = [].
Proof.
  intros E. unfold preds, preds_in.
  destruct (filter (counted (Dict.keys (tables g)) t) (edges g)) as [|x r] eqn:F;
    [reflexivity|].
  assert (H : In x (x :: r)) by now left.
  rewrite <- F in H. apply filter_In in H. destruct H as [H C].
  assert (X : In x (table_edges g)).
  { unfold table_edges. apply filter_In. split; auto.
    rewrite table_to_table_value. unfold counted in C.
    rewrite !andb_true_iff in C. tauto. }
  rewrite E in X. destruct X.
Qed.

(** X19. Tables with no dependencies first: for any graph whose [tables]
    form a dict, the order returned by [get_execution_order] begins with the
    tables into which no counted [TableToTable] edge runs, in registration
    order.  When the graph has no [TableToTable] edge at all, the order is the
    registration order of the tables. *)
Theorem roots_come_first (set_iter : list string -> list string) (g : LineageGraph) :
  (forall s, Permutation (set_iter s) s) ->
  Dict.wf (tables g) ->
  (exists rest, get_execution_order set_iter g = Done (roots g ++ rest)%list)
  /\ (table_edges g = [] ->
      get_execution_order set_iter g = Done (Dict.keys (tables g))).
Proof.
  intros SP W. pose proof (@build_spec g W) as B.
  unfold get_execution_order.
  destruct (build g) as [adj in_degree] eqn:EB.
  pose proof (@initial_queue_roots g adj in_degree W B) as Q.
  pose proof B as [KA [KD [DG [ND AD]]]]. simpl in KA, KD, DG, ND, AD.
  destruct (@kahn_runs set_iter SP (Dict.keys (tables g)) adj ND
              (fun u => @build_adj_incl _ _ _ u B)
              (List.length (Dict.keys (tables g))) in_degree
              (map fst (filter (fun nd => (snd nd =? 0)%Z) in_degree)) [])
    as [final [in_degree_f [R [_ [NF [IN _]]]]]].
  { now apply initial_queue_inv. }
  { simpl. lia. }
  rewrite R. rewrite app_nil_r in NF, IN.
  destruct (kahn_prefix _ _ _ _ _ _ R) as [rest E]. simpl in E. rewrite Q in E.
  split.
  - exists (rest ++ filter (fun t => negb (str_in t final)) (Dict.keys (tables g)))%list.
    rewrite E. now rewrite <- app_assoc.
  - intros NE.
    assert (RK : roots g = Dict.keys (tables g)).
    { unfold roots.
      rewrite (@filter_ext _ _ (fun _ => true)).
      - apply filter_keep_all.
      - intros t. now rewrite (no_table_edges_no_preds g t NE). }
    rewrite RK in E.
    assert (L : List.length final <= List.length (Dict.keys (tables g)))
      by (apply NoDup_incl_length; auto).
    rewrite E, length_app in L.
    destruct rest as [|x r]; [|simpl in L; lia].
    rewrite app_nil_r in E. rewrite E, filter_all_placed. now rewrite app_nil_r.
Qed.

Lemma roots_come_first_witness :
  exists rest, get_execution_order (fun s => rev s) Samples.diamond
               = Done (roots Samples.diamond ++ rest)%list.
Proof.
  destruct (@roots_come_first (fun s => rev s) Samples.diamond) as [H _].
  - intros s. apply Permutation_sym, Permutation_rev.
  - destruct (@well_formed_extract
                [ Samples.copy_of "b" "a"; Samples.copy_of "c" "a";
                  Samples.create "TABLE" (Samples.tbl "d")
                    (Samples.select [Samples.star]
                       [("from", Samples.from (Samples.tbl "b"));
                        ("joins", Samples.join (Samples.tbl "c")
                                    (Samples.eq (Samples.col "b" "id")
                                                (Samples.col "c" "id")))]) ]
                None false) as [WT _].
    exact WT.
  - exact H.
Defined.

(** ** Dialects *)

Lemma get_or_diag (l : list string) k : dict_get_or k (map (fun d => (d, d)) l) k = k.
Proof.
  unfold dict_get_or. induction l as [|a r IH]; simpl; [reflexivity|].
  destruct (String.eqb_spec k a) as [->|N]; [reflexivity | exact IH].
Qed.

Lemma parse_sql_resolved sqlglot_parse sql (d : string) :
  Str.nonempty d = true ->
  parse_sql sqlglot_parse sql (Some d)
  = match (match sqlglot_parse sql (Some (Str.lower d)) with
           | Ok sts => Ok sts
           | Exception _ => sqlglot_parse sql None
           end) with
    | Ok sts => Ok (drop_none sts)
    | Exception msg => Exception msg
    end.
Proof.
  intros N. unfold parse_sql, truthy. rewrite N.
  unfold SUPPORTED_DIALECTS. now rewrite get_or_diag.
Qed.

(** X20. How [parse_sql] treats the dialect.  The dialect name is
    case-insensitive, and [sqlglot.parse] always receives it lowercased
    ([SUPPORTED_DIALECTS] maps every name to itself); an empty dialect is no
    dialect.  When parsing with the dialect raises, the result is that of
    parsing without dialect; so whenever the text parses without dialect,
    [parse_sql] returns, whatever dialect was asked for. *)
Theorem parse_sql_dialect
        (sqlglot_parse : string -> option string
                         -> result (list (option exp.Expression)))
        (sql : string) :
  (forall d, parse_sql sqlglot_parse sql (Some d)
             = parse_sql sqlglot_parse sql (Some (Str.lower d)))
  /\ parse_sql sqlglot_parse sql (Some "") = parse_sql sqlglot_parse sql None
  /\ (forall d sts, Str.nonempty d = true ->
                    sqlglot_parse sql (Some (Str.lower d)) = Ok sts ->
                    parse_sql sqlglot_parse sql (Some d) = Ok (drop_none sts))
  /\ (forall d msg, Str.nonempty d = true ->
                    sqlglot_parse sql (Some (Str.lower d)) = Exception msg ->
                    parse_sql sqlglot_parse sql (Some d) = parse_sql sqlglot_parse sql None)
  /\ (forall dialect sts, sqlglot_parse sql None = Ok sts ->
                          exists statements,
                            parse_sql sqlglot_parse sql dialect = Ok statements).
Proof.
  split; [|split; [|split; [|split]]].
  - intros d. destruct (Str.nonempty d) eqn:N.
    + rewrite !parse_sql_resolved by (now rewrite ?lower_nonempty).
      now rewrite lower_idem.
    + destruct d; [reflexivity | discriminate].
  - reflexivity.
  - intros d sts N E. rewrite parse_sql_resolved by exact N. now rewrite E.
  - intros d msg N E. rewrite parse_sql_resolved by exact N. rewrite E.
    unfold parse_sql. now destruct (sqlglot_parse sql None).
  - intros dialect sts E.
    assert (D : exists statements, parse_sql sqlglot_parse sql None = Ok statements).
    { unfold parse_sql. rewrite E. now exists (drop_none sts). }
    destruct dialect as [d|]; [|exact D].
    destruct (Str.nonempty d) eqn:N; [|destruct d; [exact D | discriminate]].
    rewrite parse_sql_resolved by exact N.
    destruct (sqlglot_parse sql (Some (Str.lower d))) as [s1|m1].
    + now exists (drop_none s1).
    + rewrite E. now exists (drop_none sts).
Qed.

Lemma parse_sql_dialect_witness :
  parse_sql Samples.toy_parse "CREATE TABLE ..." (Some "PostgreS")
  = Ok [Samples.ctas_mixed_case].
Proof.
  destruct (@parse_sql_dialect Samples.toy_parse "CREATE TABLE ...") as [_ [_ [H _]]].
  apply (H "PostgreS" [Some Samples.ctas_mixed_case; None]); reflexivity.
Defined.

(** ** Edge counts *)

(** X21. The edge counts that the [analyze] endpoint and the text report
    compute add up: every edge is counted either as a table edge or as a
    column edge, never as both, so [table_edges + column_edges = total_edges]. *)
Theorem edge_counts_add_up (g : LineageGraph) :
  List.length (table_edges g) + List.length (column_edges g) = List.length (edges g)
  /\ (forall e, In e (edges g) <-> In e (table_edges g) \/ In e (column_edges g))
  /\ (forall e, In e (table_edges g) -> ~ In e (column_edges g)).
Proof.
  unfold table_edges, column_edges. split; [|split].
  - induction (edges g) as [|e r IH]; simpl; [reflexivity|].
    destruct (e_edge_type e); simpl; lia.
  - intros e. rewrite !filter_In. split.
    + intros H. destruct (e_edge_type e) eqn:T; [left | right]; split; auto;
        now rewrite T.
    + intros [[H _]|[H _]]; exact H.
  - intros e H C. apply filter_In in H. apply filter_In in C.
    destruct H as [_ H]. destruct C as [_ C].
    destruct (e_edge_type e); discriminate.
Qed.

(** ** CTE names and the nodes of the sources *)

Lemma dict_mem_set_iff V (k k' : string) (v : V) d :
  Dict.mem k (Dict.set k' v d) = true <-> k = k' \/ Dict.mem k d = true.
Proof.
  destruct (string_dec k' k) as [->|N].
  - rewrite dict_mem_set. tauto.
  - unfold Dict.mem. rewrite dict_get_set_neq by exact N.
    split; [tauto|]. intros [E|H]; [congruence | exact H].
Qed.

Lemma cte_fold_mem k (l : list exp.Expression) :
  forall m : Dict.t (option exp.Expression),
    Dict.mem k
      (fold_left
         (fun ctes cte =>
            if Str.nonempty (exp.alias (exp.attrs_of cte))
            then Dict.set (Str.lower (exp.alias (exp.attrs_of cte))) (exp.this cte) ctes
            else ctes)
         l m) = true
    <-> Dict.mem k m = true
        \/ exists cte, In cte l
                       /\ Str.nonempty (exp.alias (exp.attrs_of cte)) = true
                       /\ Str.lower (exp.alias (exp.attrs_of cte)) = k.
Proof.
  induction l as [|c r IH]; intros m; simpl.
  - split; [tauto|]. intros [H|[cte [[] _]]]. exact H.
  - rewrite IH. destruct (Str.nonempty (exp.alias (exp.attrs_of c))) eqn:N.
    + rewrite dict_mem_set_iff. split.
      * intros [[->|H]|[cte [H1 H2]]]; auto.
        -- right. exists c. auto.
        -- right. exists cte. tauto.
      * intros [H|[cte [[<-|H1] [H2 H3]]]]; auto.
        right. exists cte. auto.
    + split.
      * intros [H|[cte [H1 H2]]]; auto. right. exists cte. tauto.
      * intros [H|[cte [[<-|H1] [H2 H3]]]]; auto.
        -- congruence.
        -- right. exists cte. auto.
Qed.

(** X22. The names [_get_cte_names] collects: a key is bound exactly when
    it is the lowercased, non-empty alias of a [CTE] node under the first
    [WITH] clause of the statement; a statement without [WITH] clause binds
    nothing, and every key is lowercase. *)
Theorem cte_names_spec (statement : exp.Expression) (k : string) :
  (Dict.mem k (_get_cte_names statement) = true
   <-> exists with_clause cte,
        exp.find exp.With statement = Some with_clause
        /\ In cte (exp.find_all exp.CTE with_clause)
        /\ Str.nonempty (exp.alias (exp.attrs_of cte)) = true
        /\ Str.lower (exp.alias (exp.attrs_of cte)) = k)
  /\ (exp.find exp.With statement = None -> _get_cte_names statement = [])
  /\ (Dict.mem k (_get_cte_names statement) = true -> Str.lower k = k).
Proof.
  assert (M : Dict.mem k (_get_cte_names statement) = true
              <-> exists with_clause cte,
                   exp.find exp.With statement = Some with_clause
                   /\ In cte (exp.find_all exp.CTE with_clause)
                   /\ Str.nonempty (exp.alias (exp.attrs_of cte)) = true
                   /\ Str.lower (exp.alias (exp.attrs_of cte)) = k).
  { unfold _get_cte_names.
    destruct (exp.find exp.With statement) as [w|].
    - rewrite cte_fold_mem. split.
      + intros [H|[cte H]]; [discriminate|]. exists w, cte. tauto.
      + intros [w' [cte [E H]]]. injection E as <-. right. exists cte. exact H.
    - split; [discriminate|]. intros [w' [cte [E _]]]. discriminate. }
  split; [exact M|]. split.
  - intros E. unfold _get_cte_names. now rewrite E.
  - intros H. apply M in H. destruct H as [w [cte [_ [_ [_ <-]]]]]. apply lower_idem.
Qed.

Lemma add_table_mem_other t nt g id :
  table_id t <> id ->
  Dict.mem id (tables (add_table t nt g)) = Dict.mem id (tables g).
Proof.
  intros N. unfold add_table. destruct (Dict.mem (table_id t) (tables g)); auto.
  simpl. unfold Dict.mem. now rewrite dict_get_set_neq.
Qed.

Lemma source_fold_get ctes sf target srcs :
  forall g src,
    NoDup (map table_id srcs) ->
    In src srcs ->
    Dict.mem (table_id src) (tables g) = false ->
    Dict.get (table_id src)
             (tables
                (fold_left
                   (fun g src =>
                      add_edge (mkEdge (table_qualified_name (tag_source ctes sf src))
                                       (table_qualified_name target) TABLE_TO_TABLE None sf)
                               (add_table (tag_source ctes sf src)
                                          (cte_node_type (tag_source ctes sf src)) g))
                   srcs g))
    = Some (mkTableNode (table_id src) (t_name src) (t_schema_name src) (t_database src)
                        sf (Dict.mem (Str.lower (t_name src)) ctes)
                        (if Dict.mem (Str.lower (t_name src)) ctes then "cte" else "table")).
Proof.
  induction srcs as [|a r IH]; intros g src ND H F; [destruct H|].
  inversion ND as [|? ? NA ND']; subst. simpl fold_left.
  set (g1 := add_edge (mkEdge (table_qualified_name (tag_source ctes sf a))
                              (table_qualified_name target) TABLE_TO_TABLE None sf)
                      (add_table (tag_source ctes sf a)
                                 (cte_node_type (tag_source ctes sf a)) g)).
  destruct (string_dec (table_id a) (table_id src)) as [E|N].
  - assert (SA : src = a).
    { destruct H as [H|H]; [now symmetry|].
      exfalso. apply NA. rewrite E. now apply in_map. }
    subst src.
    destruct (@source_fold_frame ctes sf target r g1) as [_ [_ [_ [_ [G _]]]]].
    rewrite G.
    + unfold g1, add_table. simpl. rewrite tag_source_id, F. simpl.
      rewrite dict_get_set_eq. reflexivity.
    + unfold g1. simpl. rewrite <- (tag_source_id ctes sf a). apply add_table_registers.
  - destruct H as [H|H]; [congruence|].
    apply IH; auto.
    unfold g1. simpl. rewrite add_table_mem_other; auto.
Qed.

(** X23. The node a source table gets.  In a statement with a target, a
    source whose id is neither registered before nor the id of the target is
    registered with the given source file, with [is_cte] set exactly when its
    lowercased name is bound by the [WITH] clause, and with node type [cte] in
    that case and [table] otherwise. *)
Theorem source_node_registered (statement : exp.Expression) (g : LineageGraph)
        (source_file : option string) (include_columns : bool) (target src : Table) :
  _get_target_table statement = Some target ->
  In src (_get_source_tables statement) ->
  Dict.mem (table_id src) (tables g) = false ->
  table_id src <> table_id target ->
  let is_cte := Dict.mem (Str.lower (t_name src)) (_get_cte_names statement) in
  Dict.get (table_id src)
           (tables (_process_statement statement g source_file include_columns))
  = Some (mkTableNode (table_id src) (t_name src) (t_schema_name src) (t_database src)
                      source_file is_cte (if is_cte then "cte" else "table")).
Proof.
  intros T H F N is_cte. unfold _process_statement. rewrite T. cbv zeta.
  assert (ND : NoDup (map table_id (_get_source_tables statement))).
  { unfold _get_source_tables.
    destruct (@source_loop_spec (exp.find_all_p exp.Table statement) [] [])
      as [A _]; [reflexivity | apply NoDup_nil | exact A]. }
  assert (F1 : Dict.mem (table_id src)
                        (tables (add_table (with_source_file source_file target)
                                           (target_node_type statement) g)) = false).
  { rewrite add_table_mem_other; auto. }
  pose proof (@source_fold_get (_get_cte_names statement) source_file
                (with_source_file source_file target) (_get_source_tables statement)
                _ src ND H F1) as G.
  destruct include_columns; [|exact G].
  rewrite fold_add_col_edge_tables. exact G.
Qed.

Lemma source_node_registered_witness :
  Dict.get "source"
           (tables (_process_statement Samples.ctas_mixed_case empty_graph
                                       (Some "f.sql") true))
  = Some (mkTableNode "source" "Source" None None (Some "f.sql") false "table").
Proof.
  apply (@source_node_registered Samples.ctas_mixed_case empty_graph (Some "f.sql") true
           (Table_named "Target") (Table_named "Source")).
  - reflexivity.
  - vm_compute. tauto.
  - reflexivity.
  - discriminate.
Defined.

(** ** The alias table *)

Lemma alias_entry_get k m table_expr t :
  Dict.get k (alias_entry m table_expr) = Some t ->
  Dict.get k m = Some t
  \/ (t = _parse_table_ref table_expr
      /\ (Str.lower (t_name t) = k
          \/ (Str.nonempty (exp.alias (exp.attrs_of table_expr)) = true
              /\ Str.lower (exp.alias (exp.attrs_of table_expr)) = k))).
Proof.
  unfold alias_entry.
  destruct (string_dec (Str.lower (t_name (_parse_table_ref table_expr))) k) as [E|N].
  - rewrite E, dict_get_set_eq. intros H. injection H as <-. right. auto.
  - rewrite dict_get_set_neq by exact N.
    destruct (Str.nonempty (exp.alias (exp.attrs_of table_expr))) eqn:A; auto.
    destruct (string_dec (Str.lower (exp.alias (exp.attrs_of table_expr))) k) as [E|N'].
    + rewrite E, dict_get_set_eq. intros H. injection H as <-. right. auto.
    + rewrite dict_get_set_neq by exact N'. auto.
Qed.

Lemma alias_fold_get k (l : list exp.Expression) :
  forall m t,
    Dict.get k (fold_left alias_entry l m) = Some t ->
    Dict.get k m = Some t
    \/ exists table_expr,
        In table_expr l
        /\ t = _parse_table_ref table_expr
        /\ (Str.lower (t_name t) = k
            \/ (Str.nonempty (exp.alias (exp.attrs_of table_expr)) = true
                /\ Str.lower (exp.alias (exp.attrs_of table_expr)) = k)).
Proof.
  induction l as [|a r IH]; simpl; intros m t H; [now left|].
  apply IH in H. destruct H as [H|[te [H1 H2]]].
  - apply alias_entry_get in H. destruct H as [H|H]; [now left|].
    right. exists a. tauto.
  - right. exists te. tauto.
Qed.

Lemma alias_entry_mem k m table_expr :
  Dict.mem k m = true -> Dict.mem k (alias_entry m table_expr) = true.
Proof.
  intros H. unfold alias_entry. apply dict_mem_set_other.
  destruct (Str.nonempty _); auto. now apply dict_mem_set_other.
Qed.

Lemma name_fold_get k (l : list Table) :
  forall (m : Dict.t Table) t,
    Dict.get k (fold_left (fun m table => Dict.set (Str.lower (t_name table)) table m) l m)
    = Some t ->
    Dict.get k m = Some t \/ (In t l /\ Str.lower (t_name t) = k).
Proof.
  induction l as [|a r IH]; simpl; intros m t H; [now left|].
  apply IH in H. destruct H as [H|[H1 H2]]; [|now right; auto].
  destruct (string_dec (Str.lower (t_name a)) k) as [E|N].
  - rewrite E, dict_get_set_eq in H. injection H as <-. right. auto.
  - rewrite dict_get_set_neq in H by exact N. now left.
Qed.

Lemma name_fold_mem (l : list Table) :
  forall (m : Dict.t Table) s,
    In s l ->
    Dict.mem (Str.lower (t_name s))
             (fold_left (fun m table => Dict.set (Str.lower (t_name table)) table m) l m)
    = true.
Proof.
  induction l as [|a r IH]; simpl; intros m s H; [destruct H|].
  destruct H as [<-|H]; [|now apply IH].
  apply (@fold_left_inv _ _ _ (fun m' => Dict.mem (Str.lower (t_name a)) m' = true)).
  - apply dict_mem_set.
  - intros m' b _ M. now apply dict_mem_set_other.
Qed.

(** X24. The alias table is sound and knows every source.  Whatever
    [build_alias_map] maps a key to is a source table whose lowercased name
    is the key, or the table of a reference under a [FROM] or [JOIN] of the
    main SELECT whose lowercased name or non-empty lowercased alias is the
    key; and the lowercased name of every source table is a key.  So a
    qualified column is only ever attributed to a table that the qualifier
    names, up to letter case. *)
Theorem alias_map_sound (select : exp.Expression) (source_tables : list Table) :
  (forall k t,
      Dict.get k (build_alias_map select source_tables) = Some t ->
      (In t source_tables /\ Str.lower (t_name t) = k)
      \/ exists table_expr,
          (In table_expr (tables_under exp.From select)
           \/ In table_expr (tables_under exp.Join select))
          /\ t = _parse_table_ref table_expr
          /\ (Str.lower (t_name t) = k
              \/ (Str.nonempty (exp.alias (exp.attrs_of table_expr)) = true
                  /\ Str.lower (exp.alias (exp.attrs_of table_expr)) = k)))
  /\ (forall s, In s source_tables ->
                Dict.mem (Str.lower (t_name s)) (build_alias_map select source_tables)
                = true).
Proof.
  unfold build_alias_map. split.
  - intros k t H.
    apply alias_fold_get in H. destruct H as [H|[te [H1 H2]]];
      [|right; exists te; tauto].
    apply alias_fold_get in H. destruct H as [H|[te [H1 H2]]];
      [|right; exists te; tauto].
    apply name_fold_get in H. destruct H as [H|H]; [discriminate | now left].
  - intros s H.
    apply (@fold_left_inv _ _ alias_entry
             (fun m => Dict.mem (Str.lower (t_name s)) m = true)).
    + apply (@fold_left_inv _ _ alias_entry
               (fun m => Dict.mem (Str.lower (t_name s)) m = true)).
      * now apply name_fold_mem.
      * intros m b _ M. now apply alias_entry_mem.
    + intros m b _ M. now apply alias_entry_mem.
Qed.

Lemma alias_map_sound_witness :
  Dict.mem "a" (build_alias_map
                  (Samples.select [Samples.col "" "id"]
                                  [("from", Samples.from (Samples.tbl "a"))])
                  [Table_named "A"])
  = true.
Proof.
  destruct (@alias_map_sound
              (Samples.select [Samples.col "" "id"]
                              [("from", Samples.from (Samples.tbl "a"))])
              [Table_named "A"]) as [_ H].
  apply (H (Table_named "A")). simpl. left. reflexivity.
Defined.
